(** * YouTube channel scraper: a shallow embedding and its properties

    The development follows the Python sources:
    - [selenium_utils_COMPLETE.py]  (module [su]),
    - [youtube_scraper_COMPLETE_FIXED.py]  (class [YouTubeScraper]),
    - [data_processor_COMPLETE_FIXED.py]  (class [DataProcessor]),
    - [config_UPDATED.py].

    Python [str] values are modelled as [string] (sequences of bytes, ASCII
    case rules), [int] as [Z] or [nat], [None]-able values as [option],
    exceptions as the [Raised] branch of [outcome].  The browser and the
    remote site are an interface ([RenderBackend]) over an abstract world
    that every primitive may change and in which every primitive may raise. *)

From Stdlib Require Import String Ascii List ZArith Bool Arith Lia Permutation.
From Equations Require Import Equations.
Import ListNotations.
Local Open Scope string_scope.
Local Open Scope list_scope.

Set Implicit Arguments.

(* ===================================================================== *)
(** * Part I: definitions                                                 *)
(* ===================================================================== *)

(** ** Python string operations used by the sources *)

Module PyStr.

(** [c.lower()] for one ASCII character; other bytes are unchanged. *)
Definition lower_ascii (c : ascii) : ascii :=
  let n := nat_of_ascii c in
  if (65 <=? n)%nat && (n <=? 90)%nat then ascii_of_nat (n + 32) else c.

(** [s.lower()], on ASCII text: a byte outside ASCII is left as it is,
    where Python lowers the letters of other alphabets too (and takes
    the Kelvin sign to ['k']). *)
Fixpoint lower (s : string) : string :=
  match s with
  | EmptyString => EmptyString
  | String c r => String (lower_ascii c) (lower r)
  end.

(** [s.startswith(p)] *)
Fixpoint startswith (p s : string) : bool :=
  match p, s with
  | EmptyString, _ => true
  | String _ _, EmptyString => false
  | String a p', String b s' => Ascii.eqb a b && startswith p' s'
  end.

(** [needle in hay] *)
Fixpoint contains (needle hay : string) : bool :=
  match hay with
  | EmptyString => startswith needle EmptyString
  | String _ r => startswith needle hay || contains needle r
  end.

(** Truth value of a [str]: the empty string is falsy. *)
Definition nonempty (s : string) : bool :=
  match s with EmptyString => false | String _ _ => true end.

(** Truth value of an [Optional[str]]: [None] and [''] are falsy. *)
Definition truthy (o : option string) : bool :=
  match o with Some s => nonempty s | None => false end.

(** Characters removed by [str.strip()] with no argument (ASCII range). *)
Definition is_space (c : ascii) : bool :=
  let n := nat_of_ascii c in
  ((9 <=? n)%nat && (n <=? 13)%nat) || ((28 <=? n)%nat && (n <=? 32)%nat).

(** [s.lstrip()] *)
Fixpoint lstrip (s : string) : string :=
  match s with
  | EmptyString => EmptyString
  | String c r => if is_space c then lstrip r else s
  end.

(** [s.rstrip()] *)
Fixpoint rstrip (s : string) : string :=
  match s with
  | EmptyString => EmptyString
  | String c r =>
      match rstrip r with
      | EmptyString => if is_space c then EmptyString else String c EmptyString
      | r' => String c r'
      end
  end.

(** [s.strip()], on ASCII text: Python also strips the white space
    outside ASCII, such as the no-break space. *)
Definition strip (s : string) : string := rstrip (lstrip s).

(** [s.replace(chr(c), '')]: every occurrence of one character removed. *)
Fixpoint remove_char (c : ascii) (s : string) : string :=
  match s with
  | EmptyString => EmptyString
  | String a r => if Ascii.eqb a c then remove_char c r else String a (remove_char c r)
  end.

(** [s.replace(chr(c), chr(d))] *)
Fixpoint replace_char (c d : ascii) (s : string) : string :=
  match s with
  | EmptyString => EmptyString
  | String a r => String (if Ascii.eqb a c then d else a) (replace_char c d r)
  end.

(** [s.split(chr(c), 1)]: the text before the first [c] and, when [c]
    occurs, the text after it. *)
Fixpoint split1 (c : ascii) (s : string) : string * option string :=
  match s with
  | EmptyString => (EmptyString, None)
  | String a r =>
      if Ascii.eqb a c then (EmptyString, Some r)
      else let '(h, t) := split1 c r in (String a h, t)
  end.

(** [s.split(chr(c))]: all the fields, at least one. *)
Fixpoint split (c : ascii) (s : string) : list string :=
  match s with
  | EmptyString => [EmptyString]
  | String a r =>
      if Ascii.eqb a c then EmptyString :: split c r
      else match split c r with
           | [] => [String a EmptyString]
           | h :: t => String a h :: t
           end
  end.

End PyStr.

(** ** Exceptions and results of calls *)

(** The exception classes the sources name, all below [Exception]. *)
Inductive exn : Type :=
| TimeoutException
| NoSuchElementException
| ValueError
| OtherException (msg : string).

(** What a call does: it returns a value or raises. *)
Inductive outcome (A : Type) : Type :=
| Returned (a : A)
| Raised (e : exn).
Arguments Returned {A} a.
Arguments Raised {A} e.

Definition is_raised {A} (o : outcome A) : bool :=
  match o with Raised _ => true | Returned _ => false end.

(** ** [urllib.parse]: the part [clean_youtube_redirect] calls

    A model of [urlparse(url).query] and [parse_qs] of the Python standard
    library with their default arguments, on byte strings. *)

Module UrlLib.
Import PyStr.

Definition is_alpha (c : ascii) : bool :=
  let n := nat_of_ascii c in
  ((65 <=? n)%nat && (n <=? 90)%nat) || ((97 <=? n)%nat && (n <=? 122)%nat).

Definition is_digit (c : ascii) : bool :=
  let n := nat_of_ascii c in (48 <=? n)%nat && (n <=? 57)%nat.

(** [scheme_chars]: letters, digits and [+-.] *)
Definition is_scheme_char (c : ascii) : bool :=
  is_alpha c || is_digit c || Ascii.eqb c "+" || Ascii.eqb c "-" || Ascii.eqb c ".".

Fixpoint all_chars (p : ascii -> bool) (s : string) : bool :=
  match s with
  | EmptyString => true
  | String c r => p c && all_chars p r
  end.

Fixpoint has_char (c : ascii) (s : string) : bool :=
  match s with
  | EmptyString => false
  | String a r => Ascii.eqb a c || has_char c r
  end.

(** Leading C0 control characters and spaces, which [urlsplit] strips. *)
Fixpoint lstrip_c0 (s : string) : string :=
  match s with
  | EmptyString => EmptyString
  | String c r => if (nat_of_ascii c <=? 32)%nat then lstrip_c0 r else s
  end.

(** Tab, carriage return and newline, which [urlsplit] removes. *)
Definition remove_unsafe (s : string) : string :=
  remove_char "010" (remove_char "013" (remove_char "009" s)).

(** The scheme test of [urlsplit]: [url[:i]] up to the first [':'] is
    removed when [i > 0], it starts with a letter and holds scheme
    characters only. *)
Definition drop_scheme (url : string) : string :=
  match split1 ":" url with
  | (String c0 r as pre, Some rest) =>
      if is_alpha c0 && all_chars is_scheme_char pre then rest else url
  | _ => url
  end.

(** [_splitnetloc(url, 2)]: the text after ["//"] up to the first of
    ['/'], ['?'], ['#']. *)
Fixpoint take_netloc (s : string) : string :=
  match s with
  | EmptyString => EmptyString
  | String c r =>
      if Ascii.eqb c "/" || Ascii.eqb c "?" || Ascii.eqb c "#" then EmptyString
      else String c (take_netloc r)
  end.

Definition netloc_of (url : string) : string :=
  match url with
  | String "/" (String "/" r) => take_netloc r
  | _ => EmptyString
  end.

(** The query component: [urlsplit] cuts the fragment at the first ['#'],
    then the query at the first ['?'] of what is left.  A network location
    with one square bracket and not the other raises [ValueError].  The
    checks Python makes on a host in brackets (is it an IPv6 address?) and
    on a host outside ASCII are not modelled: this is [urlparse] for URLs
    in ASCII whose host has no pair of brackets. *)
Definition urlparse_query (url0 : string) : outcome string :=
  let url := drop_scheme (remove_unsafe (lstrip_c0 url0)) in
  let netloc := netloc_of url in
  if xorb (has_char "[" netloc) (has_char "]" netloc) then Raised ValueError
  else
    let '(nofrag, _) := split1 "#" url in
    match split1 "?" nofrag with
    | (_, Some q) => Returned q
    | (_, None) => Returned EmptyString
    end.

Definition hex_value (c : ascii) : option nat :=
  let n := nat_of_ascii c in
  if (48 <=? n)%nat && (n <=? 57)%nat then Some (n - 48)
  else if (65 <=? n)%nat && (n <=? 70)%nat then Some (n - 55)
  else if (97 <=? n)%nat && (n <=? 102)%nat then Some (n - 87)
  else None.

(** [unquote]: ["%XY"] with two hexadecimal digits becomes the byte [XY];
    any other ['%'] stays.  Python then reads the decoded bytes as UTF-8
    and the byte strings of this model keep them as they are: the two
    agree when the decoded bytes are ASCII. *)
Fixpoint unquote (s : string) : string :=
  match s with
  | EmptyString => EmptyString
  | String c r =>
      if Ascii.eqb c "%" then
        match r with
        | String a (String b r') =>
            match hex_value a, hex_value b with
            | Some x, Some y => String (ascii_of_nat (16 * x + y)) (unquote r')
            | _, _ => String c (unquote r)
            end
        | _ => String c (unquote r)
        end
      else String c (unquote r)
  end.

Definition hex_digit (n : nat) : ascii :=
  if (n <? 10)%nat then ascii_of_nat (48 + n) else ascii_of_nat (55 + n).

(** [quote(s)] with the default [safe='/']: letters, digits and [_.-~/]
    stay, every other byte becomes ["%XY"] in upper-case hexadecimal. *)
Fixpoint quote (s : string) : string :=
  match s with
  | EmptyString => EmptyString
  | String c r =>
      if is_alpha c || is_digit c || Ascii.eqb c "_" || Ascii.eqb c "."
         || Ascii.eqb c "-" || Ascii.eqb c "~" || Ascii.eqb c "/"
      then String c (quote r)
      else
        let n := nat_of_ascii c in
        String "%" (String (hex_digit (n / 16)) (String (hex_digit (n mod 16)) (quote r)))
  end.

(** [parse_qsl(qs)]: the fields between ['&'] that have a ['='] and a
    non-blank value, as (name, value) with ['+'] read as a space and
    percent escapes decoded, in the order of the query. *)
Definition parse_field (name_value : string) : list (string * string) :=
  match split1 "=" name_value with
  | (n, Some v) =>
      if nonempty v
      then [(unquote (replace_char "+" " " n), unquote (replace_char "+" " " v))]
      else []
  | (_, None) => []
  end.

Definition parse_qsl (qs : string) : list (string * string) :=
  if nonempty qs then flat_map parse_field (split "&" qs) else [].

(** A [dict] from names to lists of values, in insertion order. *)
Definition dict := list (string * list string).

Fixpoint dict_get (d : dict) (k : string) : option (list string) :=
  match d with
  | [] => None
  | (k', v) :: r => if String.eqb k' k then Some v else dict_get r k
  end.

(** [d[k].append(v)] when [k in d], else [d[k] = [v]] *)
Fixpoint dict_append (d : dict) (k v : string) : dict :=
  match d with
  | [] => [(k, [v])]
  | (k', vs) :: r =>
      if String.eqb k' k then (k', vs ++ [v]) :: r
      else (k', vs) :: dict_append r k v
  end.

(** [parse_qs(qs)] *)
Definition parse_qs (qs : string) : dict :=
  fold_left (fun d nv => dict_append d (fst nv) (snd nv)) (parse_qsl qs) [].

End UrlLib.

(** A string of ASCII characters only.  On such strings [lower] and
    [strip] are Python's [str.lower] and [str.strip]. *)
Definition ascii_only (s : string) : bool :=
  UrlLib.all_chars (fun c => (nat_of_ascii c <? 128)%nat) s.

(** ** [config_UPDATED.py]: the settings the scraper reads *)

Record config : Type := {
  MAX_WORKERS : nat;
  DELAY_BETWEEN_REQUESTS : nat;
  MAX_RETRIES : nat
}.

Definition config_UPDATED : config :=
  {| MAX_WORKERS := 6; DELAY_BETWEEN_REQUESTS := 1; MAX_RETRIES := 3 |}.

(** ** The render backend

    Selenium's driver and element objects, reached through the calls the
    sources make.  Each call runs in the outside [world], may change it,
    and returns or raises.  [create_chrome_driver] is the session
    constructor of [su] taken whole: it hands back a session or raises.
    What it does on the way (it waits two seconds with [time.sleep] and
    calls itself again when Chrome does not start) happens inside the
    call: no statement below is about the time a session start takes. *)

Inductive By : Type := XPATH | CSS_SELECTOR | TAG_NAME.

Class RenderBackend : Type := {
  world : Type;
  driver : Type;
  element : Type;
  create_chrome_driver : bool -> world -> outcome driver * world;
  driver_get : driver -> string -> world -> outcome unit * world;
  driver_title : driver -> world -> outcome string * world;
  driver_page_source : driver -> world -> outcome string * world;
  driver_find_elements : driver -> By -> string -> world -> outcome (list element) * world;
  driver_quit : driver -> world -> outcome unit * world;
  wait_until_clickable : driver -> nat -> element -> world -> outcome unit * world;
  element_click : element -> world -> outcome unit * world;
  element_text : element -> world -> outcome string * world;
  element_get_attribute : element -> string -> world -> outcome (option string) * world;
  element_find_element : element -> By -> string -> world -> outcome element * world
}.

(** ** Running Python code: frames, traces and the call monad *)

(** What a run leaves behind that the properties speak about: the calls of
    [su.safe_sleep] and the error line of the resolver's retry handler.
    Other log lines carry no control flow and are left out. *)
Inductive event : Type :=
| Slept (seconds : nat)
| AttemptError (retries max_retries : nat).

Section Frames.
Context {B : RenderBackend}.

(** A running method: the outside world, the trace so far and the
    method's local variables. *)
Record frame (L : Type) : Type := {
  world_of : world;
  trace_of : list event;
  locals : L
}.

Definition M (L A : Type) : Type := frame L -> outcome A * frame L.

Definition ret {L A} (a : A) : M L A := fun f => (Returned a, f).

Definition bind {L A C} (c : M L A) (k : A -> M L C) : M L C :=
  fun f =>
    match c f with
    | (Returned a, f1) => k a f1
    | (Raised e, f1) => (Raised e, f1)
    end.

Definition raise {L A} (e : exn) : M L A := fun f => (Raised e, f).

(** [try: c  except Exception as e: h e] *)
Definition try_except {L A} (c : M L A) (h : exn -> M L A) : M L A :=
  fun f =>
    match c f with
    | (Returned a, f1) => (Returned a, f1)
    | (Raised e, f1) => h e f1
    end.

(** [try: c  finally: fin]; an exception of [fin] replaces the outcome
    of [c]. *)
Definition try_finally {L A} (c : M L A) (fin : M L unit) : M L A :=
  fun f =>
    let '(r, f1) := c f in
    match fin f1 with
    | (Returned _, f2) => (r, f2)
    | (Raised e, f2) => (Raised e, f2)
    end.

(** A call into the backend. *)
Definition call {L A} (p : world -> outcome A * world) : M L A :=
  fun f =>
    let '(r, w) := p (world_of f) in
    (r, {| world_of := w; trace_of := trace_of f; locals := locals f |}).

Definition emit {L} (e : event) : M L unit :=
  fun f =>
    (Returned tt,
     {| world_of := world_of f; trace_of := trace_of f ++ [e]; locals := locals f |}).

Definition get_locals {L} : M L L := fun f => (Returned (locals f), f).

Definition set_locals {L} (l : L) : M L unit :=
  fun f =>
    (Returned tt, {| world_of := world_of f; trace_of := trace_of f; locals := l |}).

End Frames.

Declare Scope py_scope.
Delimit Scope py_scope with py.
Notation "x <- c ;; k" := (bind c (fun x => k))
  (at level 61, c at next level, right associativity) : py_scope.
Notation "c ;; k" := (bind c (fun _ => k))
  (at level 61, right associativity) : py_scope.
Local Open Scope py_scope.

(** [for x in xs: body x] *)
Fixpoint for_each {B : RenderBackend} {L A} (xs : list A) (body : A -> M L unit) : M L unit :=
  match xs with
  | [] => ret tt
  | x :: r => body x ;; for_each r body
  end.

(** ** [selenium_utils_COMPLETE.py] *)

Module su.
Import PyStr UrlLib.

Section WithBackend.
Context {B : RenderBackend} {L : Type}.

Definition safe_get (d : driver) (url : string) : M L bool :=
  try_except
    (call (driver_get d url) ;; ret true)
    (fun e => match e with
              | TimeoutException => ret false
              | _ => ret false
              end).

Definition safe_click (d : driver) (el : element) : M L bool :=
  try_except
    (call (wait_until_clickable d 10 el) ;;
     call (element_click el) ;;
     ret true)
    (fun e => ret false).

Definition safe_sleep (duration : nat) : M L unit := emit (Slept duration).

Definition close_driver (d : option driver) : M L unit :=
  try_except
    (match d with
     | Some drv => call (driver_quit drv)
     | None => ret tt
     end)
    (fun e => ret tt).

Definition find_elements_safe (d : driver) (by_ : By) (value : string)
  : M L (list element) :=
  try_except
    (call (driver_find_elements d by_ value))
    (fun e => match e with
              | NoSuchElementException => ret []
              | _ => ret []
              end).

Definition get_text_safe (el : element) : M L string :=
  try_except (call (element_text el)) (fun e => ret EmptyString).

Definition get_attribute_safe (el : element) (attribute : string)
  : M L (option string) :=
  try_except (call (element_get_attribute el attribute)) (fun e => ret None).

End WithBackend.

Definition normalize_url (url : string) : string :=
  if startswith "/" url then ("https://www.youtube.com" ++ url)%string else url.

Definition clean_youtube_redirect (url : option string) : option string :=
  match url with
  | Some u =>
      if nonempty u && contains "redirect" u then
        match urlparse_query u with
        | Returned query =>
            match dict_get (parse_qs query) "q" with
            | Some (v :: _) => Some v
            | Some [] => url
            | None => url
            end
        | Raised _ => url
        end
      else url
  | None => None
  end.

End su.

(** ** [data_processor_COMPLETE_FIXED.py] *)

Module DataProcessor.

(** An upper bound of a bin: a number or [float('inf')]. *)
Inductive threshold : Type :=
| Finite (n : Z)
| Infinity.

(** [avg_views < threshold] *)
Definition below (avg_views : Z) (t : threshold) : bool :=
  match t with
  | Finite n => (avg_views <? n)%Z
  | Infinity => true
  end.

Definition categories : list (string * threshold) :=
  [ ("< 5k", Finite 5000);
    ("5k-10k", Finite 10000);
    ("10k-25k", Finite 25000);
    ("25k-50k", Finite 50000);
    ("50k-100k", Finite 100000);
    ("100k-250k", Finite 250000);
    ("250k-1M", Finite 1000000);
    ("1M+", Infinity) ].

(** The [for category, threshold in categories] loop with its [return]. *)
Fixpoint find_category (cats : list (string * threshold)) (avg_views : Z)
  : option string :=
  match cats with
  | [] => None
  | (category, t) :: rest =>
      if below avg_views t then Some category else find_category rest avg_views
  end.

Definition categorize_views (avg_views : option Z) : string :=
  match avg_views with
  | None => "N/A"
  | Some v =>
      match find_category categories v with
      | Some category => category
      | None => "1M+"
      end
  end.

(** Position of a label in the ordered enumeration of the eight bins. *)
Fixpoint index_of (label : string) (labels : list string) : option nat :=
  match labels with
  | [] => None
  | l :: rest =>
      if String.eqb l label then Some 0%nat
      else option_map S (index_of label rest)
  end.

Definition category_index (label : string) : option nat :=
  index_of label (map fst categories).

End DataProcessor.

(** ** [youtube_scraper_COMPLETE_FIXED.py] *)

Module YouTubeScraper.
Import PyStr.

(** *** Helper methods *)

Definition _normalize_platform (platform_text url : string) : option string :=
  let platform_lower := lower platform_text in
  let url_lower := lower url in
  if contains "instagram" url_lower || contains "instagram" platform_lower then
    Some "Instagram"
  else if contains "tiktok" url_lower || contains "tiktok" platform_lower then
    Some "TikTok"
  else if contains "twitter" url_lower || contains "x.com" url_lower
          || contains "twitter" platform_lower then
    Some "X (Twitter)"
  else if contains "facebook" url_lower || contains "facebook" platform_lower then
    Some "Facebook"
  else if contains "telegram" url_lower || contains "t.me" url_lower
          || contains "telegram" platform_lower then
    Some "Telegram"
  else if contains "discord" url_lower || contains "discord.gg" url_lower then
    Some "Discord"
  else if contains "snapchat" url_lower || contains "snapchat" platform_lower then
    Some "Snapchat"
  else if contains "youtube.com/channel" url_lower
          || contains "youtube.com/c/" url_lower then
    Some "YouTube Channel"
  else if contains "@" url_lower then
    Some "Email"
  else None.

(** The closed set of platform labels, in matching order. *)
Inductive platform : Type :=
| Instagram | TikTok | Twitter | Facebook | Telegram
| Discord | Snapchat | YouTubeChannel | Email.

Definition label (p : platform) : string :=
  match p with
  | Instagram => "Instagram"
  | TikTok => "TikTok"
  | Twitter => "X (Twitter)"
  | Facebook => "Facebook"
  | Telegram => "Telegram"
  | Discord => "Discord"
  | Snapchat => "Snapchat"
  | YouTubeChannel => "YouTube Channel"
  | Email => "Email"
  end.

Definition matching_order : list platform :=
  [Instagram; TikTok; Twitter; Facebook; Telegram;
   Discord; Snapchat; YouTubeChannel; Email].

Definition platform_labels : list string := map label matching_order.

(** The normalizer's matching table: the test of each platform's branch,
    on the lower-cased link text and URL. *)
Definition matches (p : platform) (platform_text url : string) : bool :=
  let t := lower platform_text in
  let u := lower url in
  match p with
  | Instagram => contains "instagram" u || contains "instagram" t
  | TikTok => contains "tiktok" u || contains "tiktok" t
  | Twitter => contains "twitter" u || contains "x.com" u || contains "twitter" t
  | Facebook => contains "facebook" u || contains "facebook" t
  | Telegram => contains "telegram" u || contains "t.me" u || contains "telegram" t
  | Discord => contains "discord" u || contains "discord.gg" u
  | Snapchat => contains "snapchat" u || contains "snapchat" t
  | YouTubeChannel => contains "youtube.com/channel" u || contains "youtube.com/c/" u
  | Email => contains "@" u
  end.

(** The matching table as section 4.3 of the specification words it:
    every platform keyword is looked up in the link text and in the URL
    alike (the pattern ["x.com"] in the URL only).  This is the
    specification's side of the comparison with [matches]. *)
Definition spec_matches (p : platform) (platform_text url : string) : bool :=
  let t := lower platform_text in
  let u := lower url in
  let either k := contains k u || contains k t in
  match p with
  | Instagram => either "instagram"
  | TikTok => either "tiktok"
  | Twitter => either "twitter" || contains "x.com" u
  | Facebook => either "facebook"
  | Telegram => either "telegram" || either "t.me"
  | Discord => either "discord" || either "discord.gg"
  | Snapchat => either "snapchat"
  | YouTubeChannel => either "/channel" || either "/c/"
  | Email => either "@"
  end.

(** First platform of a list whose test holds. *)
Fixpoint first_match (test : platform -> bool) (ps : list platform) : option platform :=
  match ps with
  | [] => None
  | p :: rest => if test p then Some p else first_match test rest
  end.

(** *** Channel search *)

Section Search.
Context {B : RenderBackend}.
Variable cfg : config.       (* the [config] module *)
Variable headless : bool.    (* [self.headless] *)

(** The local variable [driver] of [search_single_channel]. *)
Definition search_locals : Type := option driver.

(** Lines 59-91: the body of the [try] of one attempt.  Every path
    through it ends in a [return]; the value is what is returned. *)
Definition try_block (channel_name : string) : M search_locals (option string) :=
  drv <- call (create_chrome_driver headless) ;;
  set_locals (Some drv) ;;
  let alias_clean := remove_char " " (strip channel_name) in
  let direct_url := ("https://www.youtube.com/@" ++ alias_clean)%string in
  loaded <- su.safe_get drv direct_url ;;
  found <- (if loaded : bool then
              title <- call (driver_title drv) ;;
              if negb (contains "404" title) then
                page_source <- call (driver_page_source drv) ;;
                ret (negb (contains "This channel" page_source))
              else ret false
            else ret false) ;;
  if found : bool then ret (Some direct_url)
  else
    let search_url :=
      ("https://www.youtube.com/results?search_query="
         ++ UrlLib.quote channel_name)%string in
    loaded <- su.safe_get drv search_url ;;
    if loaded : bool then
      su.safe_sleep (DELAY_BETWEEN_REQUESTS cfg) ;;
      channel_links <-
        su.find_elements_safe drv XPATH "//a[@href and contains(@href, '/@')]" ;;
      match channel_links with
      | first :: _ =>
          channel_url <- su.get_attribute_safe first "href" ;;
          match channel_url with
          | Some u => if nonempty u then ret (Some (su.normalize_url u)) else ret None
          | None => ret None
          end
      | [] => ret None
      end
    else ret None.

(** Lines 58-103: one [try]/[except]/[finally] statement of the loop,
    entered with [retries] failures so far.  [Some v] says the method
    returned [v]; [None] says control fell out of the handler, with
    [retries] one higher. *)
Definition try_statement (channel_name : string) (retries : nat)
  : M search_locals (option (option string)) :=
  let max_retries := MAX_RETRIES cfg in
  try_finally
    (try_except
       (v <- try_block channel_name ;; ret (Some v))
       (fun e =>
          let retries := retries + 1 in
          emit (AttemptError retries max_retries) ;;
          (if (retries <? max_retries)%nat
           then su.safe_sleep (2 ^ retries)
           else ret tt) ;;
          ret None))
    (d <- get_locals ;; su.close_driver d).

(** Lines 57-105: [while retries < max_retries: ...] and the final
    [return None]. *)
Equations while_retries (channel_name : string) (retries : nat)
  (f : frame search_locals) : outcome (option string) * frame search_locals
  by wf (MAX_RETRIES cfg - retries) lt :=
while_retries channel_name retries f with lt_dec retries (MAX_RETRIES cfg) := {
  | right _ => (Returned None, f)
  | left _ with try_statement channel_name retries f := {
      | (Returned (Some v), f1) => (Returned v, f1)
      | (Returned None, f1) => while_retries channel_name (retries + 1) f1
      | (Raised e, f1) => (Raised e, f1)
    }
}.
Next Obligation. lia. Qed.

Definition search_single_channel (channel_name : string)
  : M search_locals (option string) :=
  set_locals None ;; while_retries channel_name 0.

End Search.

(** *** Social media links *)

(** A [{"platform": ..., "url": ...}] entry. *)
Record link : Type := { link_platform : string; link_url : string }.

(** The local variables [driver] and [results] of
    [extract_single_channel_links]. *)
Record extract_locals {B : RenderBackend} : Type := {
  driver_var : option driver;
  results : list link
}.

Section Extract.
Context {B : RenderBackend}.
Variable headless : bool.    (* [self.headless] *)

Definition set_driver (d : option driver) : M extract_locals unit :=
  l <- get_locals ;; set_locals {| driver_var := d; results := results l |}.

(** [results.append(entry)] *)
Definition results_append (entry : link) : M extract_locals unit :=
  l <- get_locals ;;
  set_locals {| driver_var := driver_var l; results := results l ++ [entry] |}.

(** Lines 189-195 and again 215-221: [if clean_url:], normalise,
    [if platform:], append. *)
Definition store (platform_text : string) (clean_url : option string)
  : M extract_locals unit :=
  match clean_url with
  | Some u =>
      if nonempty u then
        match _normalize_platform platform_text u with
        | Some platform =>
            if nonempty platform
            then results_append {| link_platform := platform; link_url := u |}
            else ret tt
        | None => ret tt
        end
      else ret tt
  | None => ret tt
  end.

(** Lines 164-225: the body of the [try].  [Some l] says [return l] was
    executed inside it; [None] says it ran to its end. *)
Definition extract_try_block (channel_url : string)
  : M extract_locals (option (list link)) :=
  drv <- call (create_chrome_driver headless) ;;
  set_driver (Some drv) ;;
  let featured_url := (channel_url ++ "/featured")%string in
  loaded <- su.safe_get drv featured_url ;;
  if negb loaded then ret (Some [])
  else
    try_except
      (more_buttons <-
         su.find_elements_safe drv XPATH "//tp-yt-paper-button[contains(., 'more')]" ;;
       match more_buttons with
       | button :: _ => su.safe_click drv button ;; su.safe_sleep 1
       | [] => ret tt
       end)
      (fun e => ret tt) ;;
    desc_links <- su.find_elements_safe drv CSS_SELECTOR "#description a" ;;
    for_each desc_links (fun link_el =>
      platform_text <- su.get_text_safe link_el ;;
      raw_url <- su.get_attribute_safe link_el "href" ;;
      store platform_text (su.clean_youtube_redirect raw_url)) ;;
    let about_url := (channel_url ++ "/about")%string in
    loaded <- su.safe_get drv about_url ;;
    (if loaded : bool then
       su.safe_sleep 1 ;;
       link_elements <-
         su.find_elements_safe drv CSS_SELECTOR
           "#links-section yt-channel-external-link-view-model" ;;
       for_each link_elements (fun el =>
         try_except
           (platform_el <-
              call (element_find_element el CSS_SELECTOR
                      ".ytChannelExternalLinkViewModelTitle") ;;
            platform_text <- su.get_text_safe platform_el ;;
            link_el <- call (element_find_element el TAG_NAME "a") ;;
            raw_url <- su.get_attribute_safe link_el "href" ;;
            store platform_text (su.clean_youtube_redirect raw_url))
           (fun e => ret tt))
     else ret tt) ;;
    ret None.

(** Lines 160-232: the [try]/[except]/[finally] and the closing
    [return results]. *)
Definition extract_protected (channel_url : string)
  : M extract_locals (option (list link)) :=
  try_finally
    (try_except (extract_try_block channel_url) (fun e => ret None))
    (l <- get_locals ;; su.close_driver (driver_var l)).

Definition extract_single_channel_links (channel_url : string)
  : M extract_locals (list link) :=
  set_locals {| driver_var := None; results := [] |} ;;
  r <- extract_protected channel_url ;;
  match r with
  | Some early => ret early
  | None => l <- get_locals ;; ret (results l)
  end.

End Extract.

(** *** The parallel drivers

    [executor.submit] gives one future per input, in input order;
    [as_completed] hands the same futures back in completion order. A
    future is kept with the input it was submitted for (the [futures]
    dictionary) and with what [future.result()] does. *)

Definition future (I O : Type) : Type := (I * outcome O)%type.

(** [{executor.submit(worker, x): x for x in items}]; [run k x] is what
    the [k]-th submitted call does. *)
Fixpoint submit_all {I O} (run : nat -> I -> outcome O) (k : nat) (items : list I)
  : list (future I O) :=
  match items with
  | [] => []
  | x :: rest => (x, run k x) :: submit_all run (S k) rest
  end.

(** A [{"alias": ..., "channel_url": ...}] entry. *)
Record resolution : Type := { alias : string; channel_url : string }.

(** A [{"channel_url": ..., "platform": ..., "url": ...}] entry. *)
Record social_link : Type := {
  sl_channel_url : string;
  sl_platform : string;
  sl_url : string
}.

(** Lines 128-144: the body of [for future in as_completed(futures)]. *)
Definition search_collect (results : list resolution)
  (fut : future string (option string)) : list resolution :=
  let '(name, result) := fut in
  match result with
  | Returned url =>
      results ++ [{| alias := name;
                     channel_url := match url with
                                    | Some u => if nonempty u then u else "Not Found"
                                    | None => "Not Found"
                                    end |}]
  | Raised e =>
      results ++ [{| alias := name; channel_url := "Error" |}]
  end.

Definition search_channels
  (run : nat -> string -> outcome (option string))
  (as_completed : list (future string (option string)) ->
                  list (future string (option string)))
  (channel_names : list string) : list resolution :=
  let futures := submit_all run 0 channel_names in
  fold_left search_collect (as_completed futures) [].

(** Lines 252-262: the body of [for future in as_completed(futures)]. *)
Definition extract_collect (results : list social_link)
  (fut : future string (list link)) : list social_link :=
  let '(channel_url, result) := fut in
  match result with
  | Returned links =>
      results ++ map (fun link_data =>
                        {| sl_channel_url := channel_url;
                           sl_platform := link_platform link_data;
                           sl_url := link_url link_data |}) links
  | Raised e => results
  end.

Definition extract_social_links
  (run : nat -> string -> outcome (list link))
  (as_completed : list (future string (list link)) ->
                  list (future string (list link)))
  (channel_urls : list string) : list social_link :=
  let futures := submit_all run 0 channel_urls in
  fold_left extract_collect (as_completed futures) [].

(** The workers the two drivers submit: the [k]-th call runs in its own
    browser session, in the world [w k]. *)
Definition search_worker {B : RenderBackend} (cfg : config) (headless : bool)
  (w : nat -> world) (k : nat) (name : string) : outcome (option string) :=
  fst (search_single_channel cfg headless name
         {| world_of := w k; trace_of := []; locals := None |}).

Definition extract_worker {B : RenderBackend} (headless : bool)
  (w : nat -> world) (k : nat) (channel_url : string) : outcome (list link) :=
  fst (extract_single_channel_links headless channel_url
         {| world_of := w k; trace_of := [];
            locals := {| driver_var := None; results := [] |} |}).

End YouTubeScraper.

(* ===================================================================== *)
(** * Part II: properties                                                 *)
(* ===================================================================== *)

Import PyStr UrlLib DataProcessor YouTubeScraper.

Unset Implicit Arguments.

(** ** The view categorizer *)

Lemma find_category_split (cats : list (string * threshold)) (v : Z) (c : string) :
  find_category cats v = Some c ->
  exists before t after,
    cats = before ++ (c, t) :: after
    /\ below v t = true
    /\ forallb (fun bin => negb (below v (snd bin))) before = true.
Proof.
  induction cats as [| [c0 t0] rest IH]; simpl; intros Hf.
  - discriminate.
  - destruct (below v t0) eqn:Hb.
    + injection Hf as <-. exists [], t0, rest. simpl. auto.
    + destruct (IH Hf) as (before & t & after & -> & Ht & Hall).
      exists ((c0, t0) :: before), t, after. simpl. rewrite Hb. auto.
Qed.

Lemma find_category_total (v : Z) :
  exists c, find_category categories v = Some c.
Proof.
  unfold categories. simpl.
  repeat match goal with
         | |- context [(v <? ?n)%Z] => destruct (v <? n)%Z
         end; eauto.
Qed.

Lemma categorize_views_is_found (v : Z) :
  find_category categories v = Some (categorize_views (Some v)).
Proof.
  unfold categorize_views.
  destruct (find_category_total v) as [c ->]. reflexivity.
Qed.

(** C8. An absent input gives "N/A".  A present input gives the label of
    the first bin of the ordered table whose upper bound is strictly above
    the input: every bin before it has a bound at or below the input.  So
    4999 is in "< 5k", 5000 in "5k-10k", 1000000 in "1M+", and every input
    at or below zero is in the lowest bin "< 5k". *)
Theorem categorize_views_first_bin_above :
  categorize_views None = "N/A"
  /\ (forall v : Z, exists before t after,
         categories = before ++ (categorize_views (Some v), t) :: after
         /\ below v t = true
         /\ forallb (fun bin => negb (below v (snd bin))) before = true)
  /\ categorize_views (Some 4999%Z) = "< 5k"
  /\ categorize_views (Some 5000%Z) = "5k-10k"
  /\ categorize_views (Some 1000000%Z) = "1M+"
  /\ (forall v : Z, (v <= 0)%Z -> categorize_views (Some v) = "< 5k").
Proof.
  split; [reflexivity |].
  split.
  { intros v. apply find_category_split. apply categorize_views_is_found. }
  repeat (split; [reflexivity |]).
  intros v Hv. unfold categorize_views, categories. simpl.
  destruct (Z.ltb_spec v 5000); [reflexivity | lia].
Qed.

Lemma categorize_views_first_bin_above_witness :
  categorize_views (Some (-7)%Z) = "< 5k".
Proof.
  apply (proj2 (proj2 (proj2 (proj2 (proj2 categorize_views_first_bin_above))))).
  lia.
Defined.

(** C9. The categorizer is monotone: for present inputs [a <= b] the bin
    of [a] comes no later than the bin of [b] in the ordered enumeration of
    the eight bins. *)
Theorem categorize_views_monotone (a b : Z) :
  (a <= b)%Z ->
  exists i j,
    category_index (categorize_views (Some a)) = Some i
    /\ category_index (categorize_views (Some b)) = Some j
    /\ (i <= j)%nat.
Proof.
  intros Hab.
  unfold categorize_views, categories, find_category, below.
  repeat match goal with
         | |- context [(?x <? ?n)%Z] => destruct (Z.ltb_spec x n)
         end;
    try lia;
    (eexists; eexists; split; [reflexivity | split; [reflexivity | lia]]).
Qed.

Lemma categorize_views_monotone_witness :
  exists i j,
    category_index (categorize_views (Some 4999%Z)) = Some i
    /\ category_index (categorize_views (Some 250000%Z)) = Some j
    /\ (i <= j)%nat.
Proof.
  apply (@categorize_views_monotone 4999%Z 250000%Z). lia.
Defined.

(** ** Substring tests *)

Lemma startswith_app (p q s : string) :
  startswith (p ++ q)%string s = true -> startswith p s = true.
Proof.
  revert s. induction p as [| a p IH]; intros s; [reflexivity |].
  destruct s as [| b s]; cbn [startswith String.append]; [intros H; exact H |].
  intros H. apply andb_true_iff in H. destruct H as [Hab Hrest].
  rewrite Hab. cbn. apply IH. exact Hrest.
Qed.

Lemma contains_app (p q s : string) :
  contains (p ++ q)%string s = true -> contains p s = true.
Proof.
  induction s as [| c s IH]; cbn [contains].
  - apply startswith_app.
  - intros H. apply orb_true_iff in H. apply orb_true_iff.
    destruct H as [H | H]; [left; exact (startswith_app _ _ _ H) | right; auto].
Qed.

(** ** The platform normalizer *)

(** Place of a platform in the matching order. *)
Definition rank (p : platform) : nat :=
  match p with
  | Instagram => 0 | TikTok => 1 | Twitter => 2 | Facebook => 3 | Telegram => 4
  | Discord => 5 | Snapchat => 6 | YouTubeChannel => 7 | Email => 8
  end.

(** The [if]/[elif] chain is a first-match search through the table. *)
Lemma normalize_platform_first_match (text url : string) :
  _normalize_platform text url =
  option_map label (first_match (fun p => matches p text url) matching_order).
Proof.
  unfold _normalize_platform, matching_order, first_match, matches.
  cbv zeta.
  repeat match goal with
         | |- context [if ?c then _ else _] => destruct c
         end; reflexivity.
Qed.

Lemma first_match_lowest (text url : string) (p : platform) :
  matches p text url = true ->
  (forall r, (rank r < rank p)%nat -> matches r text url = false) ->
  _normalize_platform text url = Some (label p).
Proof.
  intros Hp Hlow.
  rewrite normalize_platform_first_match.
  unfold matching_order.
  destruct p; cbn [first_match];
    repeat match goal with
           | |- context [matches ?r text url] =>
               first [ rewrite Hp; reflexivity
                     | rewrite (Hlow r) by (cbn; lia) ]
           end.
Qed.

Lemma normalize_platform_closed (text url : string) :
  _normalize_platform text url = None
  \/ exists p, _normalize_platform text url = Some (label p).
Proof.
  rewrite normalize_platform_first_match.
  destruct (first_match _ _) as [p |]; [right; exists p | left]; reflexivity.
Qed.

(** C5. Of two platforms whose keywords an input has, the one listed
    earlier is meant to win.  With "Discord" as link text and a Snapchat
    URL the input has the keywords of Discord and of Snapchat and of no
    other platform, and Discord is listed before Snapchat; the normalizer
    answers "Snapchat".  Its Discord branch does not read the link text,
    so the chain goes past it: the order of the branches is the stated one,
    and the earlier platform loses all the same.  The two instances the
    rule is given with do hold, for ASCII text and URL: a URL with both
    "tiktok" and "discord" in it (and no "instagram" around) gives
    "TikTok", and "instagram" in either field gives "Instagram". *)
Theorem normalize_platform_discord_text_loses :
  _normalize_platform "Discord" "https://www.snapchat.com/add/x" = Some "Snapchat"
  /\ spec_matches Discord "Discord" "https://www.snapchat.com/add/x" = true
  /\ spec_matches Snapchat "Discord" "https://www.snapchat.com/add/x" = true
  /\ (forall p,
        spec_matches p "Discord" "https://www.snapchat.com/add/x" = true ->
        p = Discord \/ p = Snapchat)
  /\ (rank Discord < rank Snapchat)%nat
  /\ matches Discord "Discord" "https://www.snapchat.com/add/x" = false
  /\ platform_labels =
       ["Instagram"; "TikTok"; "X (Twitter)"; "Facebook"; "Telegram";
        "Discord"; "Snapchat"; "YouTube Channel"; "Email"]
  /\ (forall text url,
        ascii_only text = true ->
        ascii_only url = true ->
        contains "tiktok" (lower url) = true ->
        contains "discord" (lower url) = true ->
        contains "instagram" (lower url) = false ->
        contains "instagram" (lower text) = false ->
        _normalize_platform text url = Some "TikTok")
  /\ (forall text url,
        ascii_only text = true ->
        ascii_only url = true ->
        contains "instagram" (lower text) = true
        \/ contains "instagram" (lower url) = true ->
        _normalize_platform text url = Some "Instagram").
Proof.
  split; [reflexivity |].
  split; [reflexivity |].
  split; [reflexivity |].
  split.
  { intros p. destruct p; vm_compute; intros H; try discriminate H; auto. }
  split; [cbn; lia |].
  split; [reflexivity |].
  split; [reflexivity |].
  split.
  - intros text url _ _ Ht _ Hu Hx.
    apply (@first_match_lowest text url TikTok).
    + unfold matches. rewrite Ht. reflexivity.
    + intros r Hr. destruct r; cbn in Hr; try lia.
      unfold matches. rewrite Hu, Hx. reflexivity.
  - intros text url _ _ H.
    apply (@first_match_lowest text url Instagram).
    + unfold matches. destruct H as [-> | ->];
        [apply orb_true_r | reflexivity].
    + intros r Hr. cbn in Hr. lia.
Qed.

Lemma normalize_platform_discord_text_loses_witness :
  Discord = Discord \/ Discord = Snapchat.
Proof.
  apply (proj1 (proj2 (proj2 (proj2 normalize_platform_discord_text_loses))) Discord).
  reflexivity.
Defined.

(** The sibling branches: for the platforms whose branch also tests the
    link text, the keyword in the text alone is enough. *)
Definition text_keyword (p : platform) : option string :=
  match p with
  | Instagram => Some "instagram"
  | TikTok => Some "tiktok"
  | Twitter => Some "twitter"
  | Facebook => Some "facebook"
  | Telegram => Some "telegram"
  | Snapchat => Some "snapchat"
  | Discord | YouTubeChannel | Email => None
  end.

Lemma text_keyword_suffices (p : platform) (k text url : string) :
  text_keyword p = Some k ->
  contains k (lower text) = true ->
  (forall r, (rank r < rank p)%nat -> matches r text url = false) ->
  _normalize_platform text url = Some (label p).
Proof.
  intros Hk Hin Hlow.
  apply first_match_lowest; [| exact Hlow].
  destruct p; cbn in Hk; try discriminate Hk;
    injection Hk as <-; unfold matches; rewrite Hin;
    repeat rewrite orb_true_r; reflexivity.
Qed.

Lemma label_discord_only (p : platform) : label p = "Discord" -> p = Discord.
Proof. destruct p; cbn; intros H; try discriminate H; reflexivity. Qed.

(** C6. The link text alone is meant to be enough for every platform
    keyword, "discord" among them.  The Discord branch looks at the URL
    only: with "Discord" as link text and a URL without any keyword the
    normalizer finds nothing, where the same URL with "Snapchat" as link
    text gives "Snapchat"; and no input whose URL lacks "discord" is ever
    labelled "Discord". *)
Theorem normalize_platform_discord_text_unread :
  _normalize_platform "Discord" "https://example.com/invite" = None
  /\ spec_matches Discord "Discord" "https://example.com/invite" = true
  /\ (forall p, matches p "" "https://example.com/invite" = false)
  /\ _normalize_platform "Snapchat" "https://example.com/invite" = Some "Snapchat"
  /\ (forall text url,
        contains "discord" (lower url) = false ->
        _normalize_platform text url <> Some "Discord").
Proof.
  split; [reflexivity |].
  split; [reflexivity |].
  split; [intros p; destruct p; reflexivity |].
  split; [reflexivity |].
  intros text url Hu Hn.
  rewrite normalize_platform_first_match in Hn.
  destruct (first_match _ _) as [p |] eqn:Hf; [| discriminate Hn].
  cbn in Hn. injection Hn as Hl. apply label_discord_only in Hl. subst p.
  assert (Hm : matches Discord text url = true).
  { revert Hf. unfold matching_order. cbn [first_match].
    repeat match goal with
           | |- context [if ?c then _ else _] =>
               destruct c eqn:?; try discriminate
           end; intros; congruence. }
  unfold matches in Hm. rewrite Hu in Hm. cbn in Hm.
  rewrite (@contains_app "discord" ".gg" (lower url) Hm) in Hu.
  discriminate Hu.
Qed.

Lemma normalize_platform_discord_text_unread_witness :
  _normalize_platform "Join our Discord" "https://example.com/invite" <> Some "Discord".
Proof.
  apply (proj2 (proj2 (proj2 (proj2 normalize_platform_discord_text_unread)))).
  reflexivity.
Defined.

(** ** The redirect unwrapper *)


Lemma split_no_separator (c : ascii) (s : string) :
  has_char c s = false -> split c s = [s].
Proof.
  induction s as [| a s IH]; cbn [has_char split]; [reflexivity |].
  intros H. apply orb_false_iff in H. destruct H as [Ha Hs].
  rewrite Ha, (IH Hs). reflexivity.
Qed.

(** A query made of the one field ["q=target"]. *)
Lemma parse_qs_single_q (target : string) :
  nonempty target = true ->
  has_char "&" target = false ->
  parse_qs ("q=" ++ target) = [("q", [unquote (replace_char "+" " " target)])].
Proof.
  intros Hne Hamp.
  unfold parse_qs, parse_qsl.
  change (nonempty ("q=" ++ target)) with true. cbv iota.
  rewrite split_no_separator by (cbn; exact Hamp).
  cbn [flat_map]. unfold parse_field.
  change (split1 "=" ("q=" ++ target)) with ("q", Some target).
  cbv iota. rewrite Hne. reflexivity.
Qed.

(** ** Reasoning about runs *)

Section Runs.
Context {B : RenderBackend}.

(** A computation that never raises. *)
Definition safe {L A} (c : M L A) : Prop :=
  forall f, exists a, fst (c f) = Returned a.

(** A computation that returns and touches the outside world only: the
    trace and the local variables are as before. *)
Definition harmless {L A} (c : M L A) : Prop :=
  forall f, exists a w,
    c f = (Returned a, {| world_of := w; trace_of := trace_of f; locals := locals f |}).

Lemma harmless_safe {L A} (c : M L A) : harmless c -> safe c.
Proof. intros H f. destruct (H f) as (a & w & ->). exists a. reflexivity. Qed.

Lemma safe_ret {L A} (a : A) : safe (@ret B L A a).
Proof. intros f. exists a. reflexivity. Qed.

Lemma safe_bind {L A C} (c : M L A) (k : A -> M L C) :
  safe c -> (forall a, safe (k a)) -> safe (bind c k).
Proof.
  intros Hc Hk f. unfold bind.
  destruct (Hc f) as [a Ha]. destruct (c f) as [r f1]. cbn in Ha. subst r.
  apply Hk.
Qed.

Lemma safe_try_except {L A} (c : M L A) (h : exn -> M L A) :
  (forall e, safe (h e)) -> safe (try_except c h).
Proof.
  intros Hh f. unfold try_except.
  destruct (c f) as [[a | e] f1]; [exists a; reflexivity | apply Hh].
Qed.


Lemma safe_emit {L} (e : event) : safe (@emit B L e).
Proof. intros f. exists tt. reflexivity. Qed.

Lemma safe_get_locals {L} : safe (@get_locals B L).
Proof. intros f. exists (locals f). reflexivity. Qed.

Lemma safe_set_locals {L} (l : L) : safe (@set_locals B L l).
Proof. intros f. exists tt. reflexivity. Qed.

Lemma safe_for_each {L A} (xs : list A) (body : A -> M L unit) :
  (forall x, safe (body x)) -> safe (for_each xs body).
Proof.
  intros Hb. induction xs as [| x xs IH]; cbn [for_each].
  - apply safe_ret.
  - apply safe_bind; auto.
Qed.

(** The helpers of [su] swallow every exception of the call they wrap. *)

Lemma safe_get_harmless {L} (d : driver) (url : string) :
  harmless (@su.safe_get B L d url).
Proof.
  intros f. unfold su.safe_get, try_except, bind, call, ret.
  destruct (driver_get d url (world_of f)) as [[[] | e] w]; [| destruct e]; eauto.
Qed.

Lemma safe_click_harmless {L} (d : driver) (el : element) :
  harmless (@su.safe_click B L d el).
Proof.
  intros f. unfold su.safe_click, try_except, bind, call, ret.
  destruct (wait_until_clickable d 10 el (world_of f)) as [[[] | e] w]; cbn; eauto.
  destruct (element_click el w) as [[[] | e] w']; eauto.
Qed.

Lemma close_driver_harmless {L} (d : option driver) :
  harmless (@su.close_driver B L d).
Proof.
  intros f. unfold su.close_driver, try_except, call, ret.
  destruct d as [drv |].
  - destruct (driver_quit drv (world_of f)) as [[[] | e] w]; eauto.
  - exists tt, (world_of f). destruct f; reflexivity.
Qed.

Lemma find_elements_safe_harmless {L} (d : driver) (by_ : By) (value : string) :
  harmless (@su.find_elements_safe B L d by_ value).
Proof.
  intros f. unfold su.find_elements_safe, try_except, call, ret.
  destruct (driver_find_elements d by_ value (world_of f)) as [[els | e] w];
    [| destruct e]; eauto.
Qed.

Lemma get_text_safe_harmless {L} (el : element) :
  harmless (@su.get_text_safe B L el).
Proof.
  intros f. unfold su.get_text_safe, try_except, call, ret.
  destruct (element_text el (world_of f)) as [[s | e] w]; eauto.
Qed.

Lemma get_attribute_safe_harmless {L} (el : element) (attribute : string) :
  harmless (@su.get_attribute_safe B L el attribute).
Proof.
  intros f. unfold su.get_attribute_safe, try_except, call, ret.
  destruct (element_get_attribute el attribute (world_of f)) as [[s | e] w]; eauto.
Qed.

Lemma safe_sleep_safe {L} (duration : nat) : safe (@su.safe_sleep B L duration).
Proof. apply safe_emit. Qed.

(** *** Frame relations kept by every step

    [R] relates the frame before a computation to the frame after it.
    When [R] is a preorder that does not look at the world, it is kept by
    everything built from the combinators, whatever is called. *)

Section Kept.
Context {L : Type}.
Variable R : frame L -> frame L -> Prop.
Hypothesis R_refl : forall f, R f f.
Hypothesis R_trans : forall f g h, R f g -> R g h -> R f h.
Hypothesis R_world : forall f w,
  R f {| world_of := w; trace_of := trace_of f; locals := locals f |}.

Definition kept {A} (c : M L A) : Prop := forall f, R f (snd (c f)).

Lemma kept_ret {A} (a : A) : kept (ret a).
Proof. intros f. apply R_refl. Qed.

Lemma kept_raise {A} (e : exn) : kept (@raise B L A e).
Proof. intros f. apply R_refl. Qed.

Lemma kept_call {A} (p : world -> outcome A * world) : kept (call p).
Proof. intros f. unfold call. destruct (p (world_of f)) as [r w]. apply R_world. Qed.

Lemma kept_get_locals : kept get_locals.
Proof. intros f. apply R_refl. Qed.

Lemma kept_harmless {A} (c : M L A) : harmless c -> kept c.
Proof. intros H f. destruct (H f) as (a & w & ->). apply R_world. Qed.

Lemma kept_bind {A C} (c : M L A) (k : A -> M L C) :
  kept c -> (forall a, kept (k a)) -> kept (bind c k).
Proof.
  intros Hc Hk f. unfold bind. specialize (Hc f).
  destruct (c f) as [[a | e] f1]; cbn in Hc; [| exact Hc].
  apply R_trans with f1; [exact Hc | apply Hk].
Qed.

Lemma kept_try_except {A} (c : M L A) (h : exn -> M L A) :
  kept c -> (forall e, kept (h e)) -> kept (try_except c h).
Proof.
  intros Hc Hh f. unfold try_except. specialize (Hc f).
  destruct (c f) as [[a | e] f1]; cbn in Hc; [exact Hc |].
  apply R_trans with f1; [exact Hc | apply Hh].
Qed.

Lemma kept_try_finally {A} (c : M L A) (fin : M L unit) :
  kept c -> kept fin -> kept (try_finally c fin).
Proof.
  intros Hc Hfin f. unfold try_finally. specialize (Hc f).
  destruct (c f) as [r f1]; cbn in Hc. specialize (Hfin f1).
  destruct (fin f1) as [[u | e] f2]; cbn in Hfin |- *;
    apply R_trans with f1; assumption.
Qed.

Lemma kept_for_each {A} (xs : list A) (body : A -> M L unit) :
  (forall x, kept (body x)) -> kept (for_each xs body).
Proof.
  intros Hb. induction xs as [| x xs IH]; cbn [for_each].
  - apply kept_ret.
  - apply kept_bind; auto.
Qed.

End Kept.

End Runs.

(** ** The channel resolver *)

(** The frame after has the trace of the frame before. *)
Definition same_trace {B : RenderBackend} {L} (f g : frame L) : Prop :=
  trace_of g = trace_of f.

(** What one failed attempt leaves in the trace: the error line and, when
    another attempt follows, the back-off sleep. *)
Definition retry_events (max_retries k : nat) : list event :=
  AttemptError k max_retries
    :: (if (k <? max_retries)%nat then [Slept (2 ^ k)] else []).

(** The trace of a run in which attempts [first], [first + 1], ... fail. *)
Definition backoff_trace (max_retries first count : nat) : list event :=
  flat_map (retry_events max_retries) (seq first count).

Lemma same_trace_refl {B : RenderBackend} {L} (f : frame L) : same_trace f f.
Proof. reflexivity. Qed.

Lemma same_trace_trans {B : RenderBackend} {L} (f g h : frame L) :
  same_trace f g -> same_trace g h -> same_trace f h.
Proof. unfold same_trace. congruence. Qed.

Lemma same_trace_world {B : RenderBackend} {L} (f : frame L) (w : world) :
  same_trace f {| world_of := w; trace_of := trace_of f; locals := locals f |}.
Proof. reflexivity. Qed.

Lemma kept_set_locals_trace {B : RenderBackend} {L} (l : L) : kept same_trace (set_locals l).
Proof. intros f. reflexivity. Qed.

Create HintDb runs.
#[local] Hint Resolve safe_get_harmless safe_click_harmless close_driver_harmless
  find_elements_safe_harmless get_text_safe_harmless get_attribute_safe_harmless : runs.

(** Goals [kept R c], for a relation [R] with its three laws at hand. *)
Ltac keeps R R_refl R_trans R_world :=
  repeat first
    [ apply (kept_ret R R_refl)
    | apply (kept_call R R_world)
    | apply (kept_get_locals R R_refl)
    | apply (kept_harmless R R_world); solve [auto with runs]
    | apply (kept_bind R R_trans); [| intros ?]
    | apply (kept_try_except R R_trans); [| intros ?]
    | match goal with
      | |- kept _ (if ?b then _ else _) => destruct b
      | |- kept _ (match ?x with _ => _ end) => destruct x
      end ].

(** Goals [safe c]. *)
Ltac never_raises :=
  repeat first
    [ apply safe_ret | apply safe_emit | apply safe_sleep_safe
    | apply safe_get_locals | apply safe_set_locals
    | apply harmless_safe; solve [auto with runs]
    | apply safe_bind; [| intros ?]
    | apply safe_try_except; intros ?
    | match goal with
      | |- safe (if ?b then _ else _) => destruct b
      | |- safe (match ?x with _ => _ end) => destruct x
      end ].

Ltac silent :=
  first [ apply kept_set_locals_trace
        | keeps (@same_trace _ search_locals) (@same_trace_refl _ search_locals)
            (@same_trace_trans _ search_locals) (@same_trace_world _ search_locals) ].

Section Resolver.
Context {B : RenderBackend}.
Variable cfg : config.
Variable headless : bool.

(** A computation that, when it raises, has left the trace alone. *)
Definition raise_silent {L A} (c : M L A) : Prop :=
  forall f e f1, c f = (Raised e, f1) -> trace_of f1 = trace_of f.

Lemma raise_silent_safe {L A} (c : M L A) : safe c -> raise_silent c.
Proof.
  intros Hc f e f1 Hr. destruct (Hc f) as [a Ha].
  rewrite Hr in Ha. discriminate Ha.
Qed.

Lemma raise_silent_kept {L A} (c : M L A) : kept same_trace c -> raise_silent c.
Proof. intros Hc f e f1 Hr. specialize (Hc f). rewrite Hr in Hc. exact Hc. Qed.

Lemma raise_silent_bind {L A C} (c : M L A) (k : A -> M L C) :
  kept same_trace c -> (forall a, raise_silent (k a)) -> raise_silent (bind c k).
Proof.
  intros Hc Hk f e f1. unfold bind. specialize (Hc f).
  destruct (c f) as [[a | e0] f0]; cbn in Hc; intros Hr.
  - rewrite (Hk a f0 e f1 Hr). exact Hc.
  - injection Hr as _ <-. exact Hc.
Qed.

(** An attempt that raises has left the trace as it found it: the only
    sleep of the body comes after the last call that can raise. *)
Lemma try_block_raise_silent (name : string) : raise_silent (try_block cfg headless name).
Proof.
  unfold try_block.
  apply raise_silent_bind; [silent | intros drv].
  apply raise_silent_bind; [silent | intros _].
  apply raise_silent_bind; [silent | intros loaded].
  apply raise_silent_bind; [silent | intros found].
  destruct found; [apply raise_silent_safe; never_raises |].
  apply raise_silent_bind; [silent | intros loaded2].
  apply raise_silent_safe. never_raises.
Qed.

Lemma bind_returned {L A C} (c : M L A) (k : A -> M L C) f a f1 :
  c f = (Returned a, f1) -> bind c k f = k a f1.
Proof. intros H. unfold bind. rewrite H. reflexivity. Qed.

Lemma bind_raised {L A C} (c : M L A) (k : A -> M L C) f e f1 :
  c f = (Raised e, f1) -> bind c k f = (Raised e, f1).
Proof. intros H. unfold bind. rewrite H. reflexivity. Qed.

Lemma try_except_returned {L A} (c : M L A) (h : exn -> M L A) f a f1 :
  c f = (Returned a, f1) -> try_except c h f = (Returned a, f1).
Proof. intros H. unfold try_except. rewrite H. reflexivity. Qed.

Lemma try_except_raised {L A} (c : M L A) (h : exn -> M L A) f e f1 :
  c f = (Raised e, f1) -> try_except c h f = h e f1.
Proof. intros H. unfold try_except. rewrite H. reflexivity. Qed.

Lemma try_finally_harmless {L A} (c : M L A) (fin : M L unit) f r f1 :
  harmless fin ->
  c f = (r, f1) ->
  exists w,
    try_finally c fin f
    = (r, {| world_of := w; trace_of := trace_of f1; locals := locals f1 |}).
Proof.
  intros Hfin Hc. unfold try_finally. rewrite Hc.
  destruct (Hfin f1) as ([] & w & ->). exists w. reflexivity.
Qed.

Lemma finally_close_driver_harmless :
  harmless (d <- @get_locals B search_locals ;; su.close_driver d).
Proof.
  intros f. destruct (close_driver_harmless (locals f) f) as ([] & w & Hc).
  exists tt, w. exact Hc.
Qed.

(** An exception in an attempt is one failed attempt: the handler writes
    the error line with the new count, sleeps [2 ^ retries] seconds when
    the budget is not used up, and the loop goes on. *)
Lemma try_statement_raised (name : string) (retries : nat)
  (f f1 : frame search_locals) (e : exn) :
  try_block cfg headless name f = (Raised e, f1) ->
  exists f2,
    try_statement cfg headless name retries f = (Returned None, f2)
    /\ trace_of f2 = trace_of f ++ retry_events (MAX_RETRIES cfg) (retries + 1).
Proof.
  intros Hr. pose proof (try_block_raise_silent name f e f1 Hr) as Ht.
  unfold try_statement.
  match goal with
  | |- context [try_finally ?c ?fin f] =>
      destruct (c f) as [r g] eqn:Hc;
      destruct (try_finally_harmless c fin f r g finally_close_driver_harmless Hc) as [w ->]
  end.
  erewrite try_except_raised in Hc by (apply bind_raised; exact Hr).
  unfold retry_events.
  destruct (retries + 1 <? MAX_RETRIES cfg)%nat;
    cbv [bind emit su.safe_sleep ret] in Hc; injection Hc as <- <-;
    eexists; (split; [reflexivity |]); cbn [trace_of]; rewrite Ht;
    rewrite <- ?app_assoc; reflexivity.
Qed.

(** An attempt that returns ends the method with that value. *)
Lemma try_statement_returned (name : string) (retries : nat)
  (f f1 : frame search_locals) (v : option string) :
  try_block cfg headless name f = (Returned v, f1) ->
  exists w,
    try_statement cfg headless name retries f
    = (Returned (Some v),
       {| world_of := w; trace_of := trace_of f1; locals := locals f1 |}).
Proof.
  intros Hr.
  unfold try_statement.
  match goal with
  | |- context [try_finally ?c ?fin f] =>
      destruct (c f) as [r g] eqn:Hc;
      destruct (try_finally_harmless c fin f r g finally_close_driver_harmless Hc) as [w ->]
  end.
  erewrite try_except_returned in Hc
    by (erewrite bind_returned by exact Hr; reflexivity).
  injection Hc as <- <-. exists w. reflexivity.
Qed.



(** One turn of the loop. *)
Lemma while_retries_turn (name : string) (retries : nat) (f : frame search_locals) :
  while_retries cfg headless name retries f =
  if lt_dec retries (MAX_RETRIES cfg) then
    match try_statement cfg headless name retries f with
    | (Returned (Some v), f1) => (Returned v, f1)
    | (Returned None, f1) => while_retries cfg headless name (retries + 1) f1
    | (Raised e, f1) => (Raised e, f1)
    end
  else (Returned None, f).
Proof.
  funelim (while_retries cfg headless name retries f);
    rewrite ?Heq0, ?Heq; reflexivity.
Qed.


Definition start {B : RenderBackend} (w : world) : frame search_locals :=
  {| world_of := w; trace_of := []; locals := None |}.



Lemma call_eq {L A} (p : world -> outcome A * world) (f : frame L) r w :
  p (world_of f) = (r, w) ->
  call p f = (r, {| world_of := w; trace_of := trace_of f; locals := locals f |}).
Proof. intros Hp. unfold call. rewrite Hp. reflexivity. Qed.

Lemma safe_get_fails {L} (d : driver) (url : string) (f : frame L) (e : exn) (w : world) :
  driver_get d url (world_of f) = (Raised e, w) ->
  su.safe_get d url f
  = (Returned false, {| world_of := w; trace_of := trace_of f; locals := locals f |}).
Proof.
  intros Hg. unfold su.safe_get, try_except, bind, call. rewrite Hg.
  destruct e; reflexivity.
Qed.

(** With a session but no page: both [safe_get] calls answer [False], the
    attempt runs to [return None] and nothing is slept. *)
Lemma try_block_navigation_fails (name : string) (f : frame search_locals) :
  (forall w, exists d w', create_chrome_driver headless w = (Returned d, w')) ->
  (forall d url w, exists e w', driver_get d url w = (Raised e, w')) ->
  exists f1,
    try_block cfg headless name f = (Returned None, f1)
    /\ trace_of f1 = trace_of f.
Proof.
  intros Hcreate Hnav.
  destruct (Hcreate (world_of f)) as (d & w1 & Hc).
  unfold try_block.
  erewrite bind_returned by (apply call_eq; exact Hc).
  erewrite bind_returned by reflexivity.
  match goal with
  | |- context [su.safe_get d ?url] =>
      destruct (Hnav d url w1) as (e1 & w2 & Hg1)
  end.
  erewrite bind_returned by (eapply safe_get_fails; exact Hg1).
  erewrite bind_returned by reflexivity.
  cbv iota.
  match goal with
  | |- context [su.safe_get d ?url] =>
      destruct (Hnav d url w2) as (e2 & w3 & Hg2)
  end.
  erewrite bind_returned by (eapply safe_get_fails; exact Hg2).
  eexists. split; reflexivity.
Qed.

Lemma search_single_channel_navigation_fails (name : string) (w : world) :
  (0 < MAX_RETRIES cfg)%nat ->
  (forall w, exists d w', create_chrome_driver headless w = (Returned d, w')) ->
  (forall d url w, exists e w', driver_get d url w = (Raised e, w')) ->
  exists f',
    search_single_channel cfg headless name (start w) = (Returned None, f')
    /\ trace_of f' = [].
Proof.
  intros Hmax Hcreate Hnav.
  unfold search_single_channel.
  erewrite bind_returned by reflexivity.
  rewrite while_retries_turn.
  destruct (lt_dec 0 (MAX_RETRIES cfg)) as [_ | Hge]; [| lia].
  match goal with
  | |- context [try_statement cfg headless name 0 ?g] =>
      destruct (try_block_navigation_fails name g Hcreate Hnav) as (f1 & Hb & Ht);
      destruct (try_statement_returned name 0 g f1 None Hb) as [w' ->]
  end.
  eexists. split; [reflexivity |]. cbn [trace_of]. exact Ht.
Qed.


End Resolver.

(** ** The parallel drivers *)

(** The entry [search_channels] writes for one future. *)
Definition resolution_of (fut : future string (option string)) : resolution :=
  {| alias := fst fut;
     channel_url := match snd fut with
                    | Returned (Some u) => if nonempty u then u else "Not Found"
                    | Returned None => "Not Found"
                    | Raised _ => "Error"
                    end |}.

(** The entries [extract_social_links] writes for one future. *)
Definition rows_of (fut : future string (list link)) : list social_link :=
  match snd fut with
  | Returned links =>
      map (fun link_data =>
             {| sl_channel_url := fst fut;
                sl_platform := link_platform link_data;
                sl_url := link_url link_data |}) links
  | Raised _ => []
  end.

Lemma search_collect_fold (done : list (future string (option string)))
  (acc : list resolution) :
  fold_left search_collect done acc = acc ++ map resolution_of done.
Proof.
  revert acc. induction done as [| [name r] done IH]; intros acc; cbn [fold_left map].
  - rewrite app_nil_r. reflexivity.
  - rewrite IH. unfold search_collect, resolution_of. cbn [fst snd].
    destruct r as [[u |] | e]; rewrite <- app_assoc; reflexivity.
Qed.

Lemma extract_collect_fold (done : list (future string (list link)))
  (acc : list social_link) :
  fold_left extract_collect done acc = acc ++ flat_map rows_of done.
Proof.
  revert acc. induction done as [| [url r] done IH]; intros acc; cbn [fold_left flat_map].
  - rewrite app_nil_r. reflexivity.
  - rewrite IH. unfold extract_collect, rows_of. cbn [fst snd].
    destruct r as [links | e]; [rewrite <- app_assoc | rewrite app_nil_l]; reflexivity.
Qed.

Lemma submit_all_inputs {I O} (run : nat -> I -> outcome O) (k : nat) (items : list I) :
  map fst (submit_all run k items) = items.
Proof.
  revert k. induction items as [| x items IH]; intros k; cbn; [| rewrite IH]; reflexivity.
Qed.

Lemma submit_all_in {I O} (run : nat -> I -> outcome O) (k : nat) (items : list I)
  (fut : future I O) :
  In fut (submit_all run k items) <->
  exists i, nth_error items i = Some (fst fut) /\ snd fut = run (k + i) (fst fut).
Proof.
  revert k. induction items as [| x items IH]; intros k; cbn [submit_all In].
  - split; [intros [] | intros (i & Hi & _); destruct i; discriminate Hi].
  - rewrite IH. split.
    + intros [<- | (i & Hi & Hr)].
      * exists 0. cbn. rewrite Nat.add_0_r. auto.
      * exists (S i). cbn [nth_error]. rewrite Nat.add_succ_r. auto.
    + intros (i & Hi & Hr). destruct i as [| i]; cbn [nth_error] in Hi.
      * left. injection Hi as ->. rewrite Nat.add_0_r in Hr.
        destruct fut as [y r]; cbn in *. rewrite Hr. reflexivity.
      * right. exists i. rewrite Nat.add_succ_r in Hr. auto.
Qed.

Lemma search_channels_entries (run : nat -> string -> outcome (option string))
  (as_completed : list (future string (option string)) ->
                  list (future string (option string)))
  (names : list string) :
  search_channels run as_completed names
  = map resolution_of (as_completed (submit_all run 0 names)).
Proof. unfold search_channels. rewrite search_collect_fold. reflexivity. Qed.

Lemma extract_social_links_entries (run : nat -> string -> outcome (list link))
  (as_completed : list (future string (list link)) -> list (future string (list link)))
  (urls : list string) :
  extract_social_links run as_completed urls
  = flat_map rows_of (as_completed (submit_all run 0 urls)).
Proof. unfold extract_social_links. rewrite extract_collect_fold. reflexivity. Qed.

(** ** Backends to run the code on *)

(** A backend that writes down the calls made on it.  It can be told to
    fail every session start and every page load; every page has the title
    of the not-found page, and [page] lists the anchors (text, href) that
    every CSS query finds. *)
Definition scripted (can_start can_load : bool) (page : list (string * string))
  : RenderBackend :=
  {| world := list string;
     driver := unit;
     element := string * string;
     create_chrome_driver := fun _ w =>
       if can_start then (Returned tt, w ++ ["start"])
       else (Raised (OtherException "session not created"), w ++ ["start"]);
     driver_get := fun _ url w =>
       if can_load then (Returned tt, w ++ [("get " ++ url)%string])
       else (Raised TimeoutException, w ++ [("get " ++ url)%string]);
     driver_title := fun _ w => (Returned "404 Not Found", w);
     driver_page_source := fun _ w => (Returned "", w);
     driver_find_elements := fun _ by_ _ w =>
       (Returned (match by_ with CSS_SELECTOR => page | _ => [] end), w);
     driver_quit := fun _ w => (Returned tt, w ++ ["quit"]);
     wait_until_clickable := fun _ _ _ w => (Returned tt, w);
     element_click := fun _ w => (Returned tt, w);
     element_text := fun el w => (Returned (fst el), w);
     element_get_attribute := fun el _ w => (Returned (Some (snd el)), w);
     element_find_element := fun el _ _ w => (Returned el, w) |}.

(** No browser can be started. *)
Definition no_browser : RenderBackend := scripted false false [].

(** The browser starts and every page load times out. *)
Definition no_network : RenderBackend := scripted true false [].

(** A channel page with three anchors. *)
Definition channel_page : RenderBackend :=
  scripted true true
    [ ("Instagram",
       "https://www.youtube.com/redirect?event=channel&q=https%3A%2F%2Finstagram.com%2Fx");
      ("My blog", "https://example.com/blog");
      ("Join our Discord", "https://example.com/invite") ].

Example no_browser_run :
  let run := search_single_channel (B := no_browser) config_UPDATED true "lost channel"
               (start (B := no_browser) []) in
  fst run = Returned None
  /\ world_of (snd run) = ["start"; "start"; "start"]
  /\ trace_of (snd run)
     = [AttemptError 1 3; Slept 2; AttemptError 2 3; Slept 4; AttemptError 3 3].
Proof. repeat split. Qed.

Example no_network_run :
  let run := search_single_channel (B := no_network) config_UPDATED true "lost channel"
               (start (B := no_network) []) in
  fst run = Returned None
  /\ world_of (snd run)
     = ["start";
        "get https://www.youtube.com/@lostchannel";
        "get https://www.youtube.com/results?search_query=lost%20channel";
        "quit"]
  /\ trace_of (snd run) = [].
Proof. repeat split. Qed.

Example channel_page_run :
  fst (extract_single_channel_links (B := channel_page) true
         "https://www.youtube.com/@x"
         {| world_of := ([] : @world channel_page); trace_of := [];
            locals := {| driver_var := None; results := [] |} |})
  = Returned [ {| link_platform := "Instagram"; link_url := "https://instagram.com/x" |};
               {| link_platform := "Instagram"; link_url := "https://instagram.com/x" |} ].
Proof. reflexivity. Qed.

(** ** The resolver under failure *)


Lemma search_worker_navigation_fails {B : RenderBackend} (cfg : config)
  (headless : bool) (name : string) (ws : nat -> world) (k : nat) :
  (0 < MAX_RETRIES cfg)%nat ->
  (forall w, exists d w', create_chrome_driver headless w = (Returned d, w')) ->
  (forall d url w, exists e w', driver_get d url w = (Raised e, w')) ->
  search_worker cfg headless ws k name = Returned None.
Proof.
  intros Hmax Hcreate Hnav. unfold search_worker.
  destruct (search_single_channel_navigation_fails cfg headless name (ws k)
              Hmax Hcreate Hnav) as (f' & Hrun & _).
  unfold start in Hrun. rewrite Hrun. reflexivity.
Qed.

(** When the worker of an alias answers [None] whatever world it runs in,
    the alias is in the output and each of its entries says "Not Found". *)
Lemma search_channels_none (run : nat -> string -> outcome (option string))
  (as_completed : list (future string (option string)) ->
                  list (future string (option string)))
  (names : list string) (name : string) :
  (forall k, run k name = Returned None) ->
  Permutation (as_completed (submit_all run 0 names)) (submit_all run 0 names) ->
  (In name names ->
   In {| alias := name; channel_url := "Not Found" |}
      (search_channels run as_completed names))
  /\ (forall r, In r (search_channels run as_completed names) ->
                alias r = name -> channel_url r = "Not Found").
Proof.
  intros Hnone Hperm. rewrite search_channels_entries. split.
  - intros Hin. apply In_nth_error in Hin. destruct Hin as [i Hi].
    apply in_map_iff. exists (name, run i name). split.
    + unfold resolution_of. cbn [fst snd]. rewrite Hnone. reflexivity.
    + apply (Permutation_in _ (Permutation_sym Hperm)).
      apply submit_all_in. exists i. cbn [fst snd]. auto.
  - intros r Hr Halias. apply in_map_iff in Hr. destruct Hr as ([x o] & <- & Hfut).
    apply (Permutation_in _ Hperm) in Hfut.
    apply submit_all_in in Hfut. destruct Hfut as (i & _ & Ho).
    cbn [fst snd alias resolution_of] in *. subst x.
    unfold resolution_of. cbn [fst snd channel_url]. rewrite Ho, Hnone. reflexivity.
Qed.




(** C3. When a session starts and every page load fails, the two
    [safe_get] calls answer [False]; the first attempt runs to its
    [return None]: no failed attempt is counted, nothing is slept, nothing
    is retried, and [search_channels] writes "Not Found" for the alias. *)
Theorem search_navigation_failure_not_found {B : RenderBackend}
  (cfg : config) (headless : bool) (name : string) :
  (0 < MAX_RETRIES cfg)%nat ->
  (forall w, exists d w', create_chrome_driver headless w = (Returned d, w')) ->
  (forall d url w, exists e w', driver_get d url w = (Raised e, w')) ->
  (forall w, exists f',
      search_single_channel cfg headless name (start w) = (Returned None, f')
      /\ trace_of f' = [])
  /\ (forall ws as_completed names,
        Permutation
          (as_completed (submit_all (search_worker cfg headless ws) 0 names))
          (submit_all (search_worker cfg headless ws) 0 names) ->
        (In name names ->
         In {| alias := name; channel_url := "Not Found" |}
            (search_channels (search_worker cfg headless ws) as_completed names))
        /\ (forall r,
              In r (search_channels (search_worker cfg headless ws)
                      as_completed names) ->
              alias r = name -> channel_url r = "Not Found")).
Proof.
  intros Hmax Hcreate Hnav. split.
  - intros w. apply search_single_channel_navigation_fails; assumption.
  - intros ws as_completed names Hperm.
    apply search_channels_none; [| exact Hperm].
    intros k. apply search_worker_navigation_fails; assumption.
Qed.

Lemma search_navigation_failure_not_found_witness :
  exists f',
    search_single_channel (B := no_network) config_UPDATED true "lost channel"
      (start (B := no_network) [])
    = (Returned None, f')
    /\ trace_of f' = [].
Proof.
  apply (proj1 (search_navigation_failure_not_found
                  (B := no_network) config_UPDATED true "lost channel"
                  ltac:(cbn; lia)
                  (fun w => ex_intro _ tt (ex_intro _ _ eq_refl))
                  (fun d url w => ex_intro _ _ (ex_intro _ _ eq_refl)))).
Defined.

(** C3, as the claim has it, fails: with every page load timing out there
    is one attempt, no back-off, and the entry is "Not Found". *)
Lemma navigation_failure_is_not_error :
  (forall d url w, is_raised (fst (driver_get (RenderBackend := no_network) d url w)) = true)
  /\ trace_of (snd (search_single_channel (B := no_network) config_UPDATED true
                      "lost channel" (start (B := no_network) []))) = []
  /\ search_channels
       (search_worker (B := no_network) config_UPDATED true (fun _ => []))
       (fun futures => futures) ["lost channel"]
     = [{| alias := "lost channel"; channel_url := "Not Found" |}].
Proof.
  split; [intros d url w; reflexivity |].
  split; reflexivity.
Qed.

(** ** What the parallel drivers put out *)

Lemma extract_social_links_rows (run : nat -> string -> outcome (list link))
  (as_completed : list (future string (list link)) -> list (future string (list link)))
  (urls : list string) :
  Permutation (as_completed (submit_all run 0 urls)) (submit_all run 0 urls) ->
  forall row,
    In row (extract_social_links run as_completed urls) <->
    exists i links entry,
      nth_error urls i = Some (sl_channel_url row)
      /\ run i (sl_channel_url row) = Returned links
      /\ In entry links
      /\ sl_platform row = link_platform entry
      /\ sl_url row = link_url entry.
Proof.
  intros Hperm. rewrite extract_social_links_entries.
  intros row. rewrite in_flat_map. split.
  - intros ([url o] & Hfut & Hin).
    apply (Permutation_in _ Hperm) in Hfut.
    apply submit_all_in in Hfut. destruct Hfut as (i & Hi & Ho).
    cbn [fst snd] in Hi, Ho. unfold rows_of in Hin. cbn [fst snd] in Hin.
    destruct o as [links | e]; [| destruct Hin].
    apply in_map_iff in Hin. destruct Hin as (entry & <- & Hentry).
    exists i, links, entry. cbn. auto.
  - intros (i & links & entry & Hi & Hrun & Hentry & Hp & Hu).
    exists (sl_channel_url row, run i (sl_channel_url row)). split.
    + apply (Permutation_in _ (Permutation_sym Hperm)).
      apply submit_all_in. exists i. cbn [fst snd]. auto.
    + unfold rows_of. cbn [fst snd]. rewrite Hrun.
      apply in_map_iff. exists entry. split; [| exact Hentry].
      destruct row; cbn in *. subst. reflexivity.
Qed.

(** C2. [search_channels] writes one entry for each input alias, whatever
    the order of completion, and the entry of a worker that raised is the
    "Error" entry.  [extract_social_links] writes one entry for each link
    a worker returned and nothing else: a channel URL whose worker
    returned no link, or raised, has no entry in the output. *)
Theorem batch_outputs :
  (forall run as_completed names,
      Permutation (as_completed (submit_all run 0 names)) (submit_all run 0 names) ->
      Permutation (map alias (search_channels run as_completed names)) names
      /\ length (search_channels run as_completed names) = length names
      /\ (forall i name e,
            nth_error names i = Some name ->
            run i name = Raised e ->
            In {| alias := name; channel_url := "Error" |}
               (search_channels run as_completed names)))
  /\ (forall run as_completed urls,
        Permutation (as_completed (submit_all run 0 urls)) (submit_all run 0 urls) ->
        (forall row,
            In row (extract_social_links run as_completed urls) <->
            exists i links entry,
              nth_error urls i = Some (sl_channel_url row)
              /\ run i (sl_channel_url row) = Returned links
              /\ In entry links
              /\ sl_platform row = link_platform entry
              /\ sl_url row = link_url entry)
        /\ (forall url,
              (forall i, run i url = Returned [] \/ exists e, run i url = Raised e) ->
              ~ In url (map sl_channel_url (extract_social_links run as_completed urls)))).
Proof.
  split.
  - intros run as_completed names Hperm.
    rewrite search_channels_entries.
    assert (Hal : Permutation
                    (map alias (map resolution_of (as_completed (submit_all run 0 names))))
                    names).
    { rewrite map_map. cbn [resolution_of alias].
      rewrite <- (submit_all_inputs run 0 names) at 2.
      apply Permutation_map. exact Hperm. }
    split; [exact Hal |].
    split.
    + apply Permutation_length in Hal. rewrite length_map in Hal. exact Hal.
    + intros i name e Hi He.
      apply in_map_iff. exists (name, run i name). split.
      * unfold resolution_of. cbn [fst snd]. rewrite He. reflexivity.
      * apply (Permutation_in _ (Permutation_sym Hperm)).
        apply submit_all_in. exists i. cbn [fst snd]. auto.
  - intros run as_completed urls Hperm.
    pose proof (extract_social_links_rows run as_completed urls Hperm) as Hrow.
    split; [exact Hrow |].
    intros url Hnone Hin. apply in_map_iff in Hin. destruct Hin as (row & <- & Hin).
    apply Hrow in Hin. destruct Hin as (i & links & entry & _ & Hrun & Hentry & _).
    destruct (Hnone i) as [H0 | [e He]]; rewrite Hrun in *.
    + injection H0 as ->. destruct Hentry.
    + discriminate He.
Qed.

Lemma batch_outputs_witness :
  Permutation
    (map alias
       (search_channels
          (fun i name => if (i =? 0)%nat then Raised (OtherException "boom")
                         else Returned (Some ("https://www.youtube.com/@" ++ name)%string))
          (fun futures => rev futures) ["a"; "b"]))
    ["a"; "b"].
Proof.
  apply (proj1 batch_outputs). apply Permutation_sym, Permutation_rev.
Defined.

(** C2, as the claim has it, fails for [extract_social_links]: a channel
    URL whose worker raises, or returns no link, is missing from the
    output; no sentinel entry is written for it. *)
Lemma extract_social_links_drops_items :
  extract_social_links (fun _ _ => Raised (OtherException "boom"))
    (fun futures => futures) ["https://www.youtube.com/@a"] = []
  /\ extract_social_links (fun _ _ => Returned [])
       (fun futures => futures) ["https://www.youtube.com/@a"] = []
  /\ extract_social_links
       (extract_worker (B := no_browser) true (fun _ => []))
       (fun futures => futures) ["https://www.youtube.com/@a"] = [].
Proof. repeat split. Qed.

(** ** The link extractor *)

(** An entry whose platform is one of the nine labels. *)
Definition known (entry : link) : Prop := In (link_platform entry) platform_labels.

(** If the links collected before are all known, so are those after. *)
Definition labelled {B : RenderBackend} (f g : frame extract_locals) : Prop :=
  Forall known (results (locals f)) -> Forall known (results (locals g)).

(** A computation whose returned values all satisfy [Q]. *)
Definition returns_only {B : RenderBackend} {L A} (Q : A -> Prop) (c : M L A) : Prop :=
  forall f a f1, c f = (Returned a, f1) -> Q a.

(** The frame [extract_single_channel_links] starts its [try] in. *)
Definition fresh {B : RenderBackend} (f : frame extract_locals) : frame extract_locals :=
  {| world_of := world_of f; trace_of := trace_of f;
     locals := {| driver_var := None; results := [] |} |}.

Section Extractor.
Context {B : RenderBackend}.
Variable headless : bool.

Lemma labelled_refl (f : frame extract_locals) : labelled f f.
Proof. intros H. exact H. Qed.

Lemma labelled_trans (f g h : frame extract_locals) :
  labelled f g -> labelled g h -> labelled f h.
Proof. unfold labelled. auto. Qed.

Lemma labelled_world (f : frame extract_locals) (w : world) :
  labelled f {| world_of := w; trace_of := trace_of f; locals := locals f |}.
Proof. intros H. exact H. Qed.

Lemma label_known (p : platform) : In (label p) platform_labels.
Proof. unfold platform_labels. apply in_map. destruct p; cbn; tauto. Qed.

Lemma kept_labelled_sleep (n : nat) : kept labelled (su.safe_sleep n).
Proof. intros f H. exact H. Qed.

Lemma kept_labelled_set_driver (d : option driver) : kept labelled (set_driver d).
Proof. intros f H. exact H. Qed.

Lemma kept_labelled_append (entry : link) :
  known entry -> kept labelled (results_append entry).
Proof.
  intros Hk f H. cbn. apply Forall_app. split; [exact H |].
  constructor; [exact Hk | constructor].
Qed.

(** Only a link the normalizer has labelled is stored. *)
Lemma kept_labelled_store (text : string) (clean_url : option string) :
  kept labelled (store text clean_url).
Proof.
  unfold store.
  destruct clean_url as [u |]; [| apply (kept_ret labelled labelled_refl)].
  destruct (nonempty u); [| apply (kept_ret labelled labelled_refl)].
  destruct (normalize_platform_closed text u) as [-> | [p ->]];
    [apply (kept_ret labelled labelled_refl) |].
  destruct (nonempty (label p)); [| apply (kept_ret labelled labelled_refl)].
  apply kept_labelled_append. apply label_known.
Qed.

Ltac keeps_labelled :=
  repeat first
    [ apply kept_labelled_sleep
    | apply kept_labelled_set_driver
    | apply kept_labelled_store
    | apply (kept_for_each labelled labelled_refl labelled_trans); intros ?
    | apply (kept_try_finally labelled labelled_trans)
    | progress keeps (@labelled B) labelled_refl labelled_trans labelled_world ].

Lemma finally_close_extract_harmless :
  harmless (l <- @get_locals B extract_locals ;; su.close_driver (driver_var l)).
Proof.
  intros f.
  destruct (close_driver_harmless (driver_var (locals f)) f) as ([] & w & Hc).
  exists tt, w. exact Hc.
Qed.

Lemma extract_try_block_labelled (channel_url : string) :
  kept labelled (extract_try_block headless channel_url).
Proof. unfold extract_try_block. keeps_labelled. Qed.

Lemma extract_protected_labelled (channel_url : string) :
  kept labelled (extract_protected headless channel_url).
Proof.
  unfold extract_protected.
  apply (kept_try_finally labelled labelled_trans).
  - apply (kept_try_except labelled labelled_trans);
      [apply extract_try_block_labelled | intros e; apply (kept_ret labelled labelled_refl)].
  - apply (kept_harmless labelled labelled_world), finally_close_extract_harmless.
Qed.

Lemma returns_only_ret {L A} (Q : A -> Prop) (a : A) :
  Q a -> returns_only (L := L) Q (ret a).
Proof. intros Ha f a' f1 H. injection H as <- _. exact Ha. Qed.

Lemma returns_only_bind {L A C} (Q : C -> Prop) (c : M L A) (k : A -> M L C) :
  (forall a, returns_only Q (k a)) -> returns_only Q (bind c k).
Proof.
  intros Hk f y f1. unfold bind.
  destruct (c f) as [[a | e] f0]; [apply Hk | intros H; discriminate H].
Qed.

Lemma returns_only_try_except {L A} (Q : A -> Prop) (c : M L A) (h : exn -> M L A) :
  returns_only Q c -> (forall e, returns_only Q (h e)) -> returns_only Q (try_except c h).
Proof.
  intros Hc Hh f a f1. unfold try_except.
  destruct (c f) as [[a0 | e] f0] eqn:Hcf.
  - intros H. injection H as <- _. exact (Hc _ _ _ Hcf).
  - apply Hh.
Qed.

Lemma returns_only_try_finally {L A} (Q : A -> Prop) (c : M L A) (fin : M L unit) :
  returns_only Q c -> returns_only Q (try_finally c fin).
Proof.
  intros Hc f a f1. unfold try_finally.
  destruct (c f) as [r f0] eqn:Hcf.
  destruct (fin f0) as [[u | e] f2]; intros H; [| discriminate H].
  injection H as -> _. exact (Hc _ _ _ Hcf).
Qed.

(** The one [return] inside the [try] returns the empty list. *)
Definition early_is_empty (r : option (list link)) : Prop :=
  forall l, r = Some l -> l = [].

Lemma extract_protected_early (channel_url : string) :
  returns_only early_is_empty (extract_protected headless channel_url).
Proof.
  unfold extract_protected, extract_try_block.
  apply returns_only_try_finally, returns_only_try_except.
  - repeat (apply returns_only_bind; intros ?).
    match goal with |- context [if ?b then _ else _] => destruct b end.
    + apply returns_only_ret. intros l H. injection H as <-. reflexivity.
    + repeat (apply returns_only_bind; intros ?).
      apply returns_only_ret. intros l H. discriminate H.
  - intros e. apply returns_only_ret. intros l H. discriminate H.
Qed.



Lemma extract_single_channel_links_start (channel_url : string)
  (f : frame extract_locals) :
  extract_single_channel_links headless channel_url f
  = (r <- extract_protected headless channel_url ;;
     match r with
     | Some early => ret early
     | None => l <- get_locals ;; ret (results l)
     end) (fresh f).
Proof. reflexivity. Qed.

(** An exception in the [try] is swallowed and the links appended up to
    that point are returned. *)
Lemma extract_raised_returns_collected (channel_url : string)
  (f f1 : frame extract_locals) (e : exn) :
  extract_try_block headless channel_url (fresh f) = (Raised e, f1) ->
  exists f',
    extract_single_channel_links headless channel_url f
    = (Returned (results (locals f1)), f').
Proof.
  intros Hr. rewrite extract_single_channel_links_start.
  assert (Hp : exists w,
             extract_protected headless channel_url (fresh f)
             = (Returned None,
                {| world_of := w; trace_of := trace_of f1; locals := locals f1 |})).
  { unfold extract_protected.
    apply try_finally_harmless; [apply finally_close_extract_harmless |].
    rewrite (try_except_raised _ _ _ _ _ Hr). reflexivity. }
  destruct Hp as [w Hp].
  rewrite (bind_returned _ _ _ _ _ Hp).
  eexists. reflexivity.
Qed.

Lemma close_driver_some {L} (d : driver) (f : frame L) :
  su.close_driver (Some d) f
  = (Returned tt,
     {| world_of := snd (driver_quit d (world_of f));
        trace_of := trace_of f; locals := locals f |}).
Proof.
  unfold su.close_driver, try_except, call, ret.
  destruct (driver_quit d (world_of f)) as [[[] | e] w]; reflexivity.
Qed.


(** Every link the method returns carries one of the nine labels. *)
Lemma extract_links_known (channel_url : string) (f f' : frame extract_locals)
  (links : list link) :
  extract_single_channel_links headless channel_url f = (Returned links, f') ->
  Forall known links.
Proof.
  rewrite extract_single_channel_links_start. unfold bind at 1.
  pose proof (extract_protected_labelled channel_url (fresh f)) as Hkept.
  pose proof (extract_protected_early channel_url (fresh f)) as Hearly.
  destruct (extract_protected headless channel_url (fresh f)) as [[r | e] f1];
    [| intros H; discriminate H].
  destruct r as [early |]; intros H; injection H as <- _.
  - rewrite (Hearly _ _ eq_refl early eq_refl). constructor.
  - apply Hkept. constructor.
Qed.

End Extractor.



(** A list of strings without repetition, as a test. *)
Fixpoint distinct (l : list string) : bool :=
  match l with
  | [] => true
  | x :: r => negb (existsb (String.eqb x) r) && distinct r
  end.

Lemma distinct_NoDup (l : list string) : distinct l = true -> NoDup l.
Proof.
  induction l as [| x r IH]; cbn [distinct]; intros H; constructor.
  - apply andb_true_iff in H. destruct H as [Hx _].
    intros Hin. apply negb_true_iff in Hx.
    assert (Hex : existsb (String.eqb x) r = true).
    { apply existsb_exists. exists x. split; [exact Hin | apply String.eqb_refl]. }
    rewrite Hex in Hx. discriminate Hx.
  - apply IH. apply andb_true_iff in H. apply H.
Qed.

Lemma platform_labels_distinct : NoDup platform_labels.
Proof. apply distinct_NoDup. reflexivity. Qed.

(** C7. The normalizer is total: for every link text and URL it answers
    with one of the nine labels or with no match.  The link extractor
    stores a link only under one of the nine labels: every link it
    returns, and every row [extract_social_links] builds from its workers,
    carries one of them; an anchor with no match is not stored. *)
Theorem only_labelled_links_stored :
  (forall text url,
      _normalize_platform text url = None
      \/ exists p, _normalize_platform text url = Some (label p))
  /\ platform_labels
     = ["Instagram"; "TikTok"; "X (Twitter)"; "Facebook"; "Telegram";
        "Discord"; "Snapchat"; "YouTube Channel"; "Email"]
  /\ NoDup platform_labels
  /\ (forall (B : RenderBackend) headless channel_url f f' links,
        extract_single_channel_links headless channel_url f = (Returned links, f') ->
        Forall (fun entry => In (link_platform entry) platform_labels) links)
  /\ (forall (B : RenderBackend) headless ws as_completed urls,
        Permutation
          (as_completed (submit_all (extract_worker headless ws) 0 urls))
          (submit_all (extract_worker headless ws) 0 urls) ->
        Forall (fun row => In (sl_platform row) platform_labels)
          (extract_social_links (extract_worker headless ws) as_completed urls))
  /\ (forall (B : RenderBackend) text clean_url f,
        (forall u, clean_url = Some u -> _normalize_platform text u = None) ->
        results (locals (snd (store text clean_url f))) = results (locals f)).
Proof.
  split; [exact normalize_platform_closed |].
  split; [reflexivity |].
  split; [exact platform_labels_distinct |].
  split.
  { intros B headless channel_url f f' links. apply extract_links_known. }
  split.
  { intros B headless ws as_completed urls Hperm.
    apply Forall_forall. intros row Hrow.
    apply (extract_social_links_rows _ _ _ Hperm) in Hrow.
    destruct Hrow as (i & links & entry & _ & Hrun & Hentry & -> & _).
    unfold extract_worker in Hrun.
    match type of Hrun with
    | fst ?run = _ => destruct run as [r f'] eqn:Hext
    end.
    cbn in Hrun. subst r.
    pose proof (extract_links_known _ _ _ _ _ Hext) as Hknown.
    rewrite Forall_forall in Hknown. apply Hknown. exact Hentry. }
  intros B text clean_url f Hnone. unfold store.
  destruct clean_url as [u |]; [| reflexivity].
  destruct (nonempty u); [| reflexivity].
  rewrite (Hnone u eq_refl). reflexivity.
Qed.

Lemma only_labelled_links_stored_witness :
  Forall (fun entry => In (link_platform entry) platform_labels)
    [ {| link_platform := "Instagram"; link_url := "https://instagram.com/x" |};
      {| link_platform := "Instagram"; link_url := "https://instagram.com/x" |} ].
Proof.
  apply (proj1 (proj2 (proj2 (proj2 only_labelled_links_stored)))
           channel_page true "https://www.youtube.com/@x"
           {| world_of := ([] : @world channel_page); trace_of := [];
              locals := {| driver_var := None; results := [] |} |}
           (snd (extract_single_channel_links (B := channel_page) true
                   "https://www.youtube.com/@x"
                   {| world_of := ([] : @world channel_page); trace_of := [];
                      locals := {| driver_var := None; results := [] |} |}))).
  vm_compute. reflexivity.
Defined.

(* ===================================================================== *)
(** * Part III: further properties of the code                            *)
(* ===================================================================== *)

(** ** [su.normalize_url] *)

(** X1. [normalize_url] never hands back a URL that starts with ['/']: a
    relative path gets the YouTube root in front, anything else is left
    alone; so a second application changes nothing. *)
Theorem normalize_url_absolute (url : string) :
  startswith "/" (su.normalize_url url) = false
  /\ su.normalize_url (su.normalize_url url) = su.normalize_url url.
Proof.
  unfold su.normalize_url.
  destruct (startswith "/" url) eqn:Hs.
  - split; reflexivity.
  - rewrite Hs. split; reflexivity.
Qed.

(** ** Case and the normalizer *)

Lemma lower_ascii_idempotent (c : ascii) : lower_ascii (lower_ascii c) = lower_ascii c.
Proof.
  destruct c as [[] [] [] [] [] [] [] []]; reflexivity.
Qed.

Lemma lower_idempotent (s : string) : lower (lower s) = lower s.
Proof.
  induction s as [| c s IH]; cbn [lower]; [reflexivity |].
  rewrite lower_ascii_idempotent, IH. reflexivity.
Qed.

(** X2. The normalizer does not look at case: two inputs that agree once
    lower-cased get the same answer, and lower-casing the inputs first
    changes nothing. *)
Theorem normalize_platform_ignores_case :
  (forall text text' url url',
      lower text = lower text' ->
      lower url = lower url' ->
      _normalize_platform text url = _normalize_platform text' url')
  /\ (forall text url,
        _normalize_platform (lower text) (lower url) = _normalize_platform text url).
Proof.
  assert (H : forall text text' url url',
             lower text = lower text' ->
             lower url = lower url' ->
             _normalize_platform text url = _normalize_platform text' url').
  { intros text text' url url' Ht Hu. unfold _normalize_platform.
    rewrite Ht, Hu. reflexivity. }
  split; [exact H |].
  intros text url. apply H; apply lower_idempotent.
Qed.

Lemma normalize_platform_ignores_case_witness :
  _normalize_platform "TELEGRAM" "HTTPS://T.ME/X" = _normalize_platform "telegram" "https://t.me/x".
Proof.
  apply (proj1 normalize_platform_ignores_case); reflexivity.
Defined.

(** ** When a link is dropped *)

Lemma label_injective (p q : platform) : label p = label q -> p = q.
Proof. destruct p, q; cbn; intros H; try discriminate H; reflexivity. Qed.

Lemma first_match_none (test : platform -> bool) (ps : list platform) :
  first_match test ps = None <-> forall p, In p ps -> test p = false.
Proof.
  induction ps as [| q ps IH]; cbn [first_match In].
  - split; [intros _ p [] | reflexivity].
  - destruct (test q) eqn:Hq.
    + split; [intros H; discriminate H |].
      intros H. rewrite (H q (or_introl eq_refl)) in Hq. discriminate Hq.
    + rewrite IH. split.
      * intros H p [<- | Hin]; auto.
      * intros H p Hin. apply H. right. exact Hin.
Qed.

Lemma first_match_holds (test : platform -> bool) (ps : list platform) (p : platform) :
  first_match test ps = Some p -> test p = true.
Proof.
  induction ps as [| q ps IH]; cbn [first_match]; [intros H; discriminate H |].
  destruct (test q) eqn:Hq; [| exact IH].
  intros H. injection H as <-. exact Hq.
Qed.

Lemma matching_order_complete (p : platform) : In p matching_order.
Proof. destruct p; cbn; tauto. Qed.

(** X3. For a link text and a URL of ASCII characters: a label is given
    only when the test of its platform holds, and the link is dropped
    exactly when none of the nine tests holds.  So a URL with an ['@'] in
    it is never dropped: without an earlier keyword it is labelled
    "Email", a channel handle URL included. *)
Theorem normalize_platform_drops_unmatched (text url : string) :
  ascii_only text = true ->
  ascii_only url = true ->
  (forall p, _normalize_platform text url = Some (label p) -> matches p text url = true)
  /\ (_normalize_platform text url = None <-> forall p, matches p text url = false)
  /\ (contains "@" (lower url) = true ->
      exists p, _normalize_platform text url = Some (label p))
  /\ (contains "@" (lower url) = true ->
      (forall p, p <> Email -> matches p text url = false) ->
      _normalize_platform text url = Some "Email").
Proof.
  intros _ _.
  rewrite normalize_platform_first_match.
  split; [| split; [| split]].
  - intros p H.
    destruct (first_match _ _) as [q |] eqn:Hf; [| discriminate H].
    cbn in H. injection H as H. apply label_injective in H. subst q.
    exact (first_match_holds _ _ _ Hf).
  - destruct (first_match _ _) as [q |] eqn:Hf.
    + split; [intros H; discriminate H |].
      intros H. apply first_match_holds in Hf. rewrite H in Hf. discriminate Hf.
    + split; [| reflexivity]. intros _ p.
      apply (proj1 (first_match_none _ _) Hf). apply matching_order_complete.
  - intros Hat.
    destruct (first_match _ _) as [q |] eqn:Hf; [exists q; reflexivity |].
    pose proof (proj1 (first_match_none _ _) Hf Email (matching_order_complete Email)) as He.
    unfold matches in He. rewrite Hat in He. discriminate He.
  - intros Hat Hother.
    rewrite <- normalize_platform_first_match.
    apply (first_match_lowest text url Email).
    + unfold matches. exact Hat.
    + intros r Hr. apply Hother. intros ->. cbn in Hr. lia.
Qed.

Lemma normalize_platform_drops_unmatched_witness :
  _normalize_platform "Second channel" "https://www.youtube.com/@other" = Some "Email".
Proof.
  apply (proj2 (proj2 (proj2 (normalize_platform_drops_unmatched
                                "Second channel" "https://www.youtube.com/@other"
                                eq_refl eq_refl)))).
  - reflexivity.
  - intros p Hp. destruct p; try reflexivity. contradiction Hp. reflexivity.
Defined.

(** X4. For Instagram, TikTok, X (Twitter), Facebook, Telegram and
    Snapchat the platform name in an ASCII link text alone gives the
    label, when the URL is ASCII too and no earlier platform matches.  For
    Discord, YouTube Channel and Email the link text is not read: their
    tests give the same answer with the text blanked. *)
Theorem link_text_names_platform :
  (forall p k text url,
      ascii_only text = true ->
      ascii_only url = true ->
      text_keyword p = Some k ->
      contains k (lower text) = true ->
      (forall r, (rank r < rank p)%nat -> matches r text url = false) ->
      _normalize_platform text url = Some (label p))
  /\ (forall p text url,
        text_keyword p = None ->
        matches p text url = matches p "" url).
Proof.
  split.
  - intros p k text url _ _. apply text_keyword_suffices.
  - intros p text url Hk. destruct p; cbn in Hk; try discriminate Hk; reflexivity.
Qed.

Lemma link_text_names_platform_witness :
  _normalize_platform "Follow me on Snapchat" "https://example.com/u/42"
  = Some (label Snapchat).
Proof.
  apply (proj1 link_text_names_platform Snapchat "snapchat").
  - reflexivity.
  - reflexivity.
  - reflexivity.
  - reflexivity.
  - intros r Hr. destruct r; cbn in Hr; try lia; reflexivity.
Defined.

(** ** Characters that a string does not have *)

Lemma has_char_app (c : ascii) (s t : string) :
  has_char c (s ++ t)%string = has_char c s || has_char c t.
Proof.
  induction s as [| a s IH]; cbn [String.append has_char]; [reflexivity |].
  rewrite IH. apply orb_assoc.
Qed.

Lemma has_char_lstrip_c0 (c : ascii) (s : string) :
  has_char c s = false -> has_char c (lstrip_c0 s) = false.
Proof.
  induction s as [| a s IH]; cbn [lstrip_c0 has_char]; [reflexivity |].
  intros H. destruct (nat_of_ascii a <=? 32)%nat; [| exact H].
  apply orb_false_iff in H. apply IH, H.
Qed.

Lemma has_char_remove_char (c d : ascii) (s : string) :
  has_char c s = false -> has_char c (remove_char d s) = false.
Proof.
  induction s as [| a s IH]; cbn [remove_char has_char]; [reflexivity |].
  intros H. apply orb_false_iff in H. destruct H as [Ha Hs].
  destruct (Ascii.eqb a d); [auto |].
  cbn [has_char]. rewrite Ha. auto.
Qed.

Lemma remove_char_absent (c : ascii) (s : string) :
  has_char c s = false -> remove_char c s = s.
Proof.
  induction s as [| a s IH]; cbn [remove_char has_char]; [reflexivity |].
  intros H. apply orb_false_iff in H. destruct H as [Ha Hs].
  rewrite Ha, (IH Hs). reflexivity.
Qed.

Lemma replace_char_absent (c d : ascii) (s : string) :
  has_char c s = false -> replace_char c d s = s.
Proof.
  induction s as [| a s IH]; cbn [replace_char has_char]; [reflexivity |].
  intros H. apply orb_false_iff in H. destruct H as [Ha Hs].
  rewrite Ha, (IH Hs). reflexivity.
Qed.

Lemma split1_absent (c : ascii) (s : string) :
  has_char c s = false -> split1 c s = (s, None).
Proof.
  induction s as [| a s IH]; cbn [split1 has_char]; [reflexivity |].
  intros H. apply orb_false_iff in H. destruct H as [Ha Hs].
  rewrite Ha, (IH Hs). reflexivity.
Qed.

(** Neither part of a split has a character the whole did not have. *)
Lemma has_char_split1 (x c : ascii) (s : string) :
  has_char x s = false ->
  has_char x (fst (split1 c s)) = false
  /\ (forall r, snd (split1 c s) = Some r -> has_char x r = false).
Proof.
  induction s as [| a s IH]; cbn [split1 has_char].
  - intros _. split; [reflexivity | intros r H; discriminate H].
  - intros H. apply orb_false_iff in H. destruct H as [Ha Hs].
    destruct (Ascii.eqb a c).
    + split; [reflexivity |]. intros r Hr. injection Hr as <-. exact Hs.
    + destruct (IH Hs) as [Hh Ht]. destruct (split1 c s) as [h t].
      cbn [fst snd has_char] in *. split; [rewrite Ha; exact Hh | exact Ht].
Qed.

Lemma has_char_drop_scheme (x : ascii) (url : string) :
  has_char x url = false -> has_char x (drop_scheme url) = false.
Proof.
  intros H. unfold drop_scheme.
  destruct (has_char_split1 x ":" url H) as [_ Ht].
  destruct (split1 ":" url) as [[| c0 r] [rest |]]; try exact H.
  destruct (is_alpha c0 && all_chars is_scheme_char (String c0 r)); [| exact H].
  apply Ht. reflexivity.
Qed.

(** A URL without ['?'] has an empty query, when it parses at all. *)
Lemma urlparse_query_plain (url : string) :
  has_char "?" url = false ->
  urlparse_query url = Returned EmptyString \/ exists e, urlparse_query url = Raised e.
Proof.
  intros H. unfold urlparse_query.
  set (u := drop_scheme (remove_unsafe (lstrip_c0 url))).
  assert (Hu : has_char "?" u = false).
  { unfold u, remove_unsafe.
    apply has_char_drop_scheme.
    repeat apply has_char_remove_char.
    apply has_char_lstrip_c0. exact H. }
  destruct (xorb _ _); [right; eexists; reflexivity | left].
  destruct (has_char_split1 "?" "#" u Hu) as [Hh _].
  destruct (split1 "#" u) as [nofrag t]. cbn [fst] in Hh.
  rewrite (split1_absent _ _ Hh). reflexivity.
Qed.

(** X5. The redirect unwrapper never loses a link: the answer is [None]
    only for an absent URL.  And a URL without a ['?'] has no query to
    unwrap: it is returned unchanged, with or without the "redirect"
    marker. *)
Theorem clean_youtube_redirect_keeps_plain_urls :
  (forall url, su.clean_youtube_redirect url = None <-> url = None)
  /\ (forall url,
        has_char "?" url = false ->
        su.clean_youtube_redirect (Some url) = Some url).
Proof.
  split.
  - intros [u |]; [| split; reflexivity].
    split; [| intros H; discriminate H].
    unfold su.clean_youtube_redirect.
    destruct (nonempty u && contains "redirect" u); [| intros H; discriminate H].
    destruct (urlparse_query u) as [query | e]; [| intros H; discriminate H].
    destruct (dict_get (parse_qs query) "q") as [[| v vs] |];
      intros H; discriminate H.
  - intros url H. unfold su.clean_youtube_redirect.
    destruct (nonempty url && contains "redirect" url); [| reflexivity].
    destruct (urlparse_query_plain url H) as [-> | [e ->]]; reflexivity.
Qed.

Lemma clean_youtube_redirect_keeps_plain_urls_witness :
  su.clean_youtube_redirect (Some "https://redirect.example.com/q=1#top")
  = Some "https://redirect.example.com/q=1#top".
Proof.
  apply (proj2 clean_youtube_redirect_keeps_plain_urls). reflexivity.
Defined.

(** ** The search URL *)

(** The bytes [quote] writes: the ones it keeps and those of an escape. *)
Definition quoted_char (c : ascii) : bool :=
  is_alpha c || is_digit c || Ascii.eqb c "_" || Ascii.eqb c "."
  || Ascii.eqb c "-" || Ascii.eqb c "~" || Ascii.eqb c "/" || Ascii.eqb c "%".

Lemma quote_cons (c : ascii) (s : string) :
  quote (String c s) = (quote (String c EmptyString) ++ quote s)%string.
Proof.
  cbn [quote].
  destruct (is_alpha c || is_digit c || Ascii.eqb c "_" || Ascii.eqb c "."
            || Ascii.eqb c "-" || Ascii.eqb c "~" || Ascii.eqb c "/");
    reflexivity.
Qed.

Lemma all_chars_app (p : ascii -> bool) (s t : string) :
  all_chars p (s ++ t)%string = all_chars p s && all_chars p t.
Proof.
  induction s as [| a s IH]; cbn [String.append all_chars]; [reflexivity |].
  rewrite IH. apply andb_assoc.
Qed.

Lemma quote_one_quoted (c : ascii) :
  all_chars quoted_char (quote (String c EmptyString)) = true.
Proof. destruct c as [[] [] [] [] [] [] [] []]; reflexivity. Qed.

Lemma quote_quoted (s : string) : all_chars quoted_char (quote s) = true.
Proof.
  induction s as [| c s IH]; [reflexivity |].
  rewrite quote_cons, all_chars_app, quote_one_quoted, IH. reflexivity.
Qed.

Lemma all_chars_has_char (p : ascii -> bool) (x : ascii) (s : string) :
  all_chars p s = true -> p x = false -> has_char x s = false.
Proof.
  intros Hs Hx. induction s as [| a s IH]; cbn [all_chars has_char] in *; [reflexivity |].
  apply andb_true_iff in Hs. destruct Hs as [Ha Hs].
  rewrite (IH Hs), orb_false_r.
  destruct (Ascii.eqb_spec a x) as [-> | _]; [congruence | reflexivity].
Qed.

Lemma quote_lacks (x : ascii) (s : string) :
  quoted_char x = false -> has_char x (quote s) = false.
Proof. intros Hx. exact (all_chars_has_char _ _ _ (quote_quoted s) Hx). Qed.

Lemma unquote_quote_one (c : ascii) (r : string) :
  unquote (quote (String c EmptyString) ++ r)%string = String c (unquote r).
Proof. destruct c as [[] [] [] [] [] [] [] []]; reflexivity. Qed.

(** Decoding undoes encoding. *)
Lemma unquote_quote (s : string) : unquote (quote s) = s.
Proof.
  induction s as [| c s IH]; [reflexivity |].
  rewrite quote_cons, unquote_quote_one, IH. reflexivity.
Qed.

Lemma nonempty_quote (s : string) : nonempty (quote s) = nonempty s.
Proof.
  destruct s as [| c s]; [reflexivity |].
  rewrite quote_cons. destruct c as [[] [] [] [] [] [] [] []]; reflexivity.
Qed.

(** The URL of the search page, as line 72 builds it. *)
Definition search_url (channel_name : string) : string :=
  ("https://www.youtube.com/results?search_query=" ++ quote channel_name)%string.

(** X6. The search URL carries the alias as given: its query, read back
    with [urlparse] and [parse_qs], has the one parameter [search_query]
    with the raw channel name as value, spaces and reserved characters
    included.  For the empty name the parameter is blank and [parse_qs]
    drops it. *)
Theorem search_url_carries_alias :
  (forall channel_name,
      urlparse_query (search_url channel_name)
      = Returned ("search_query=" ++ quote channel_name)%string)
  /\ (forall channel_name,
        nonempty channel_name = true ->
        parse_qs ("search_query=" ++ quote channel_name)
        = [("search_query", [channel_name])])
  /\ parse_qs ("search_query=" ++ quote "") = [].
Proof.
  split; [| split; [| reflexivity]].
  - intros name. unfold urlparse_query, search_url.
    change (lstrip_c0 ("https://www.youtube.com/results?search_query=" ++ quote name))
      with ("https://www.youtube.com/results?search_query=" ++ quote name)%string.
    unfold remove_unsafe.
    rewrite (remove_char_absent "009")
      by (rewrite has_char_app, quote_lacks by reflexivity; reflexivity).
    rewrite (remove_char_absent "013")
      by (rewrite has_char_app, quote_lacks by reflexivity; reflexivity).
    rewrite (remove_char_absent "010")
      by (rewrite has_char_app, quote_lacks by reflexivity; reflexivity).
    change (drop_scheme ("https://www.youtube.com/results?search_query=" ++ quote name))
      with ("//www.youtube.com/results?search_query=" ++ quote name)%string.
    change (netloc_of ("//www.youtube.com/results?search_query=" ++ quote name))
      with "www.youtube.com".
    cbn [has_char xorb Ascii.eqb Bool.eqb orb].
    rewrite split1_absent
      by (rewrite has_char_app, quote_lacks by reflexivity; reflexivity).
    reflexivity.
  - intros name Hne. unfold parse_qs, parse_qsl.
    change (nonempty ("search_query=" ++ quote name)) with true. cbv iota.
    rewrite split_no_separator
      by (rewrite has_char_app, quote_lacks by reflexivity; reflexivity).
    cbn [flat_map]. unfold parse_field.
    change (split1 "=" ("search_query=" ++ quote name))
      with ("search_query", Some (quote name)).
    cbv iota. rewrite nonempty_quote, Hne.
    rewrite (replace_char_absent "+" " " (quote name)) by (apply quote_lacks; reflexivity).
    rewrite unquote_quote. reflexivity.
Qed.

Lemma search_url_carries_alias_witness :
  parse_qs ("search_query=" ++ quote "Tom & Jerry + friends?")
  = [("search_query", ["Tom & Jerry + friends?"])].
Proof.
  apply (proj1 (proj2 search_url_carries_alias)). reflexivity.
Defined.

(** ** Unwrapping a redirect *)








(** *** Splitting a string that is written as two parts *)





(** *** [urlparse] of a wrapper URL *)









(** *** [parse_qs] of the query of a wrapper URL *)
















(** *** The unwrapped target *)








(** ** More backends to run the code on *)

(** A backend whose first [fail_first] session starts fail; the world
    counts the starts.  Every page loads and shows a channel. *)
Definition flaky (fail_first : nat) : RenderBackend :=
  {| world := nat;
     driver := unit;
     element := unit;
     create_chrome_driver := fun _ w =>
       if (w <? fail_first)%nat
       then (Raised (OtherException "session not created"), S w)
       else (Returned tt, S w);
     driver_get := fun _ _ w => (Returned tt, w);
     driver_title := fun _ w => (Returned "Some Channel - YouTube", w);
     driver_page_source := fun _ w => (Returned "<html></html>", w);
     driver_find_elements := fun _ _ _ w => (Returned [], w);
     driver_quit := fun _ w => (Returned tt, w);
     wait_until_clickable := fun _ _ _ w => (Returned tt, w);
     element_click := fun _ w => (Returned tt, w);
     element_text := fun _ w => (Returned "", w);
     element_get_attribute := fun _ _ w => (Returned None, w);
     element_find_element := fun _ _ _ w => (Returned tt, w) |}.

(** A backend where the handle page is the not-found page and the search
    page lists the links [hits] (their hrefs); the world lists the calls. *)
Definition search_results (hits : list string) : RenderBackend :=
  {| world := list string;
     driver := unit;
     element := string;
     create_chrome_driver := fun _ w => (Returned tt, w ++ ["start"]);
     driver_get := fun _ url w => (Returned tt, w ++ [("get " ++ url)%string]);
     driver_title := fun _ w => (Returned "404 Not Found", w ++ ["title"]);
     driver_page_source := fun _ w => (Returned "", w ++ ["source"]);
     driver_find_elements := fun _ _ _ w => (Returned hits, w ++ ["find"]);
     driver_quit := fun _ w => (Returned tt, w ++ ["quit"]);
     wait_until_clickable := fun _ _ _ w => (Returned tt, w);
     element_click := fun _ w => (Returned tt, w);
     element_text := fun _ w => (Returned "", w);
     element_get_attribute := fun el _ w => (Returned (Some el), w ++ ["href"]);
     element_find_element := fun el _ _ w => (Returned el, w) |}.

(** ** The shape of every run of the resolver *)

(** The frame the loop is entered with: [driver = None]. *)
Definition entering {B : RenderBackend} (f : frame search_locals) : frame search_locals :=
  {| world_of := world_of f; trace_of := trace_of f; locals := None |}.

(** A computation that adds to the trace at most one sleep of [delay]
    seconds. *)
Definition settles_once {B : RenderBackend} {L A} (delay : nat) (c : M L A) : Prop :=
  forall f, trace_of (snd (c f)) = trace_of f
            \/ trace_of (snd (c f)) = trace_of f ++ [Slept delay].

Lemma settles_once_silent {B : RenderBackend} {L A} (delay : nat) (c : M L A) :
  kept same_trace c -> settles_once delay c.
Proof. intros Hc f. left. exact (Hc f). Qed.

Lemma settles_once_bind {B : RenderBackend} {L A C} (delay : nat)
  (c : M L A) (k : A -> M L C) :
  kept same_trace c -> (forall a, settles_once delay (k a)) ->
  settles_once delay (bind c k).
Proof.
  intros Hc Hk f. unfold bind. specialize (Hc f).
  destruct (c f) as [[a | e] f0]; cbn [snd] in *.
  - unfold same_trace in Hc. rewrite <- Hc. apply Hk.
  - left. exact Hc.
Qed.

Lemma settles_once_sleep {B : RenderBackend} {L C} (delay : nat) (k : unit -> M L C) :
  (forall a, kept same_trace (k a)) ->
  settles_once delay (bind (su.safe_sleep delay) k).
Proof.
  intros Hk f. right. unfold bind, su.safe_sleep, emit.
  exact (Hk tt _).
Qed.

Section ResolverRuns.
Context {B : RenderBackend}.
Variable cfg : config.
Variable headless : bool.

Lemma try_block_settles_once (name : string) :
  settles_once (DELAY_BETWEEN_REQUESTS cfg) (try_block cfg headless name).
Proof.
  unfold try_block.
  do 4 (apply settles_once_bind; [silent | intros ?]).
  match goal with |- context [if ?b then _ else _] => destruct b end;
    [apply settles_once_silent; silent |].
  apply settles_once_bind; [silent | intros loaded].
  destruct loaded; [| apply settles_once_silent; silent].
  apply settles_once_sleep. intros _. silent.
Qed.

(** From [retries] failures on, a run is [k] more failed attempts with
    their back-off sleeps, then either the end of the budget or one
    attempt that returns. *)
Lemma while_retries_shape (name : string) (n retries : nat) (f : frame search_locals) :
  MAX_RETRIES cfg - retries = n ->
  (retries <= MAX_RETRIES cfg)%nat ->
  exists v f' k tail,
    while_retries cfg headless name retries f = (Returned v, f')
    /\ (retries + k <= MAX_RETRIES cfg)%nat
    /\ trace_of f'
       = trace_of f ++ backoff_trace (MAX_RETRIES cfg) (retries + 1) k ++ tail
    /\ (tail = [] \/ tail = [Slept (DELAY_BETWEEN_REQUESTS cfg)])
    /\ (retries + k = MAX_RETRIES cfg -> v = None /\ tail = []).
Proof.
  revert retries f. induction n as [| n IH]; intros retries f Hn Hle;
    rewrite while_retries_turn;
    destruct (lt_dec retries (MAX_RETRIES cfg)) as [Hlt | Hge]; try lia.
  - exists None, f, 0, []. cbn [backoff_trace seq flat_map app].
    rewrite app_nil_r. repeat split; auto; lia.
  - destruct (try_block cfg headless name f) as [[v | e] f1] eqn:Hb.
    + destruct (try_statement_returned cfg headless name retries f f1 v Hb) as [w ->].
      pose proof (try_block_settles_once name f) as Hs. rewrite Hb in Hs. cbn [snd] in Hs.
      destruct Hs as [Hs | Hs].
      * exists v, {| world_of := w; trace_of := trace_of f1; locals := locals f1 |}, 0, [].
        cbn [backoff_trace seq flat_map app trace_of]. rewrite app_nil_r.
        repeat split; auto; lia.
      * exists v, {| world_of := w; trace_of := trace_of f1; locals := locals f1 |}, 0,
          [Slept (DELAY_BETWEEN_REQUESTS cfg)].
        cbn [backoff_trace seq flat_map app trace_of].
        repeat split; auto; lia.
    + destruct (try_statement_raised cfg headless name retries f f1 e Hb)
        as (f2 & -> & Htr).
      destruct (IH (retries + 1) f2 ltac:(lia) ltac:(lia))
        as (v & f' & k & tail & Hw & Hk & Ht & Htail & Hend).
      exists v, f', (S k), tail.
      split; [exact Hw |]. split; [lia |]. split; [| split; [exact Htail |]].
      * rewrite Ht, Htr. unfold backoff_trace.
        replace (retries + 1 + 1) with (S (retries + 1)) by lia.
        cbn [seq flat_map]. rewrite <- !app_assoc. reflexivity.
      * intros Hk'. apply Hend. lia.
Qed.

End ResolverRuns.

(** X9. Every run of [search_single_channel] returns, and has this
    shape: [k] failed attempts, [k] at most [MAX_RETRIES], each leaving
    its error line and (but for the [MAX_RETRIES]-th) its back-off sleep
    of [2 ^ attempt] seconds, then at most one settle delay of the attempt
    that returned.  When the budget is used up the answer is [None]; with
    [MAX_RETRIES = 0] no attempt is made at all. *)
Theorem search_single_channel_run_shape {B : RenderBackend}
  (cfg : config) (headless : bool) (name : string) (f : frame search_locals) :
  (exists v f' k tail,
      search_single_channel cfg headless name f = (Returned v, f')
      /\ (k <= MAX_RETRIES cfg)%nat
      /\ trace_of f' = trace_of f ++ backoff_trace (MAX_RETRIES cfg) 1 k ++ tail
      /\ (tail = [] \/ tail = [Slept (DELAY_BETWEEN_REQUESTS cfg)])
      /\ (k = MAX_RETRIES cfg -> v = None /\ tail = []))
  /\ (MAX_RETRIES cfg = 0%nat ->
      search_single_channel cfg headless name f = (Returned None, entering f)).
Proof.
  split.
  - unfold search_single_channel. erewrite bind_returned by reflexivity.
    destruct (while_retries_shape cfg headless name (MAX_RETRIES cfg) 0
                {| world_of := world_of f; trace_of := trace_of f; locals := None |}
                ltac:(lia) ltac:(lia))
      as (v & f' & k & tail & Hw & Hk & Ht & Htail & Hend).
    exists v, f', k, tail. cbn [Nat.add trace_of] in *. auto.
  - intros H0. unfold search_single_channel. erewrite bind_returned by reflexivity.
    rewrite while_retries_turn.
    destruct (lt_dec 0 (MAX_RETRIES cfg)); [lia | reflexivity].
Qed.

Lemma search_single_channel_run_shape_witness :
  search_single_channel (B := no_browser)
    {| MAX_WORKERS := 6; DELAY_BETWEEN_REQUESTS := 1; MAX_RETRIES := 0 |}
    true "any" (start (B := no_browser) [])
  = (Returned None, entering (start (B := no_browser) [])).
Proof.
  apply (proj2 (search_single_channel_run_shape (B := no_browser)
                  {| MAX_WORKERS := 6; DELAY_BETWEEN_REQUESTS := 1; MAX_RETRIES := 0 |}
                  true "any" (start (B := no_browser) []))).
  reflexivity.
Defined.

(** ** What the resolver returns *)

Lemma returns_only_bind_after {B : RenderBackend} {L A C} (P : A -> Prop) (Q : C -> Prop)
  (c : M L A) (k : A -> M L C) :
  returns_only P c -> (forall a, P a -> returns_only Q (k a)) -> returns_only Q (bind c k).
Proof.
  intros Hc Hk f y f1. unfold bind.
  destruct (c f) as [[a | e] f0] eqn:Hcf; [| intros H; discriminate H].
  apply (Hk a (Hc _ _ _ Hcf)).
Qed.

Lemma nonempty_normalize_url (u : string) :
  nonempty u = true -> nonempty (su.normalize_url u) = true.
Proof.
  intros H. unfold su.normalize_url.
  destruct (startswith "/" u); [reflexivity | exact H].
Qed.

(** A returned URL is not the empty string. *)
Definition found_nonempty (v : option string) : Prop :=
  forall u, v = Some u -> nonempty u = true.

Section ResolverReturns.
Context {B : RenderBackend}.
Variable cfg : config.
Variable headless : bool.

Lemma try_block_found_nonempty (name : string) :
  returns_only found_nonempty (try_block cfg headless name).
Proof.
  unfold try_block.
  do 4 (apply returns_only_bind; intros ?).
  match goal with |- context [if ?b then _ else _] => destruct b end.
  - apply returns_only_ret. intros u H. injection H as <-. reflexivity.
  - apply returns_only_bind; intros loaded.
    destruct loaded; [| apply returns_only_ret; intros u H; discriminate H].
    do 2 (apply returns_only_bind; intros ?).
    match goal with |- context [match ?l with [] => _ | _ => _ end] => destruct l end;
      [apply returns_only_ret; intros u H; discriminate H |].
    apply returns_only_bind; intros href.
    destruct href as [u |]; [| apply returns_only_ret; intros u H; discriminate H].
    destruct (nonempty u) eqn:Hu; apply returns_only_ret; intros u' H;
      [| discriminate H].
    injection H as <-. apply nonempty_normalize_url, Hu.
Qed.

Lemma try_statement_found_nonempty (name : string) (retries : nat) :
  returns_only (fun r => forall v, r = Some v -> found_nonempty v)
    (try_statement cfg headless name retries).
Proof.
  unfold try_statement.
  apply returns_only_try_finally, returns_only_try_except.
  - apply (returns_only_bind_after found_nonempty); [apply try_block_found_nonempty |].
    intros v Hv. apply returns_only_ret. intros v' H. injection H as <-. exact Hv.
  - intros e. do 2 (apply returns_only_bind; intros ?).
    apply returns_only_ret. intros v H. discriminate H.
Qed.

Lemma while_retries_found_nonempty (name : string) (n retries : nat)
  (f f' : frame search_locals) (v : option string) :
  MAX_RETRIES cfg - retries = n ->
  while_retries cfg headless name retries f = (Returned v, f') ->
  found_nonempty v.
Proof.
  revert retries f. induction n as [| n IH]; intros retries f Hn;
    rewrite while_retries_turn;
    destruct (lt_dec retries (MAX_RETRIES cfg)) as [Hlt | Hge]; try lia.
  - intros H. injection H as <- _. intros u Hu. discriminate Hu.
  - pose proof (try_statement_found_nonempty name retries f) as Hts.
    destruct (try_statement cfg headless name retries f) as [[[v0 |] | e] f1].
    + intros H. injection H as <- _. exact (Hts _ _ eq_refl _ eq_refl).
    + apply IH. lia.
    + intros H. discriminate H.
Qed.

Lemma search_single_channel_found_nonempty (name : string)
  (f f' : frame search_locals) (u : string) :
  search_single_channel cfg headless name f = (Returned (Some u), f') ->
  nonempty u = true.
Proof.
  unfold search_single_channel. erewrite bind_returned by reflexivity.
  intros H.
  exact (while_retries_found_nonempty name _ 0 _ _ _ eq_refl H u eq_refl).
Qed.

End ResolverReturns.

(** X8. The resolver never answers with an empty URL, so the entry
    [search_channels] writes for a found channel is the URL itself, never
    the "Not Found" that an empty answer would turn into. *)
Theorem search_found_url_recorded {B : RenderBackend} (cfg : config) (headless : bool) :
  (forall name f f' u,
      search_single_channel cfg headless name f = (Returned (Some u), f') ->
      nonempty u = true)
  /\ (forall ws k name u acc,
        search_worker cfg headless ws k name = Returned (Some u) ->
        search_collect acc (name, search_worker cfg headless ws k name)
        = acc ++ [{| alias := name; channel_url := u |}]).
Proof.
  split.
  - intros name f f' u. apply search_single_channel_found_nonempty.
  - intros ws k name u acc Hw. rewrite Hw.
    unfold search_worker in Hw.
    match type of Hw with
    | fst ?run = _ => destruct run as [r f'] eqn:Hrun
    end.
    cbn [fst] in Hw. subst r.
    unfold search_collect.
    rewrite (search_single_channel_found_nonempty cfg headless _ _ _ _ Hrun).
    reflexivity.
Qed.

Lemma search_found_url_recorded_witness :
  search_collect []
    ("some channel",
     search_worker (B := flaky 0) config_UPDATED true (fun _ => 0) 0 "some channel")
  = [] ++ [{| alias := "some channel";
              channel_url := "https://www.youtube.com/@somechannel" |}].
Proof.
  apply (proj2 (search_found_url_recorded (B := flaky 0) config_UPDATED true)
           (fun _ => 0) 0 "some channel" "https://www.youtube.com/@somechannel" []).
  reflexivity.
Defined.

(** ** Failing a few times, then succeeding *)

(** The frame in which the [i]-th attempt from here starts, when the loop
    is at [retries] failures in frame [f] and the attempts before it fell
    out of the handler. *)
Fixpoint frame_before_attempt {B : RenderBackend} (cfg : config) (headless : bool)
  (name : string) (retries i : nat) (f : frame search_locals) : frame search_locals :=
  match i with
  | 0 => f
  | S j =>
      frame_before_attempt cfg headless name (retries + 1) j
        (snd (try_statement cfg headless name retries f))
  end.

Lemma while_retries_recovers {B : RenderBackend} (cfg : config) (headless : bool)
  (name : string) (k retries : nat) (f f1 : frame search_locals) (v : option string) :
  (retries + k < MAX_RETRIES cfg)%nat ->
  (forall i, (i < k)%nat ->
     is_raised (fst (try_block cfg headless name
                       (frame_before_attempt cfg headless name retries i f))) = true) ->
  try_block cfg headless name (frame_before_attempt cfg headless name retries k f)
  = (Returned v, f1) ->
  exists w,
    while_retries cfg headless name retries f
    = (Returned v, {| world_of := w; trace_of := trace_of f1; locals := locals f1 |})
    /\ trace_of (frame_before_attempt cfg headless name retries k f)
       = trace_of f ++ backoff_trace (MAX_RETRIES cfg) (retries + 1) k.
Proof.
  revert retries f. induction k as [| k IH]; intros retries f Hlt Hfail Hok;
    rewrite while_retries_turn;
    (destruct (lt_dec retries (MAX_RETRIES cfg)) as [_ | Hge]; [| lia]).
  - cbn [frame_before_attempt] in *.
    destruct (try_statement_returned cfg headless name retries f f1 v Hok) as [w ->].
    exists w. split; [reflexivity |]. cbn. rewrite app_nil_r. reflexivity.
  - pose proof (Hfail 0 ltac:(lia)) as H0. cbn [frame_before_attempt] in H0, Hok |- *.
    destruct (try_block cfg headless name f) as [[v0 | e] f0] eqn:Hb; [discriminate H0 |].
    destruct (try_statement_raised cfg headless name retries f f0 e Hb)
      as (f2 & Hts & Htr).
    rewrite Hts in Hok |- *. cbn [snd] in Hok |- *.
    destruct (IH (retries + 1) f2 ltac:(lia)) as (w & Hw & Ht).
    + intros i Hi. specialize (Hfail (S i) ltac:(lia)).
      cbn [frame_before_attempt] in Hfail. rewrite Hts in Hfail. exact Hfail.
    + exact Hok.
    + exists w. split; [exact Hw |].
      rewrite Ht, Htr. unfold backoff_trace.
      replace (retries + 1 + 1) with (S (retries + 1)) by lia.
      cbn [seq flat_map]. rewrite <- app_assoc. reflexivity.
Qed.

(** X10. Retrying recovers: when the first [k] attempts raise and the
    next one returns [v], with [k] below [MAX_RETRIES], the resolver
    returns [v]; before that attempt the trace holds the [k] error lines
    and back-off sleeps, and after it what the attempt itself added. *)
Theorem search_single_channel_recovers {B : RenderBackend}
  (cfg : config) (headless : bool) (name : string) (k : nat)
  (f f1 : frame search_locals) (v : option string) :
  (k < MAX_RETRIES cfg)%nat ->
  (forall i, (i < k)%nat ->
     is_raised (fst (try_block cfg headless name
                       (frame_before_attempt cfg headless name 0 i (entering f)))) = true) ->
  try_block cfg headless name (frame_before_attempt cfg headless name 0 k (entering f))
  = (Returned v, f1) ->
  exists f',
    search_single_channel cfg headless name f = (Returned v, f')
    /\ trace_of f' = trace_of f1
    /\ trace_of (frame_before_attempt cfg headless name 0 k (entering f))
       = trace_of f ++ backoff_trace (MAX_RETRIES cfg) 1 k.
Proof.
  intros Hk Hfail Hok.
  change (search_single_channel cfg headless name f)
    with (while_retries cfg headless name 0 (entering f)).
  destruct (while_retries_recovers cfg headless name k 0 (entering f) f1 v
              ltac:(lia) Hfail Hok) as (w & Hw & Ht).
  rewrite Hw.
  eexists. split; [reflexivity |]. split; [reflexivity | exact Ht].
Qed.

Lemma search_single_channel_recovers_witness :
  exists f',
    search_single_channel (B := flaky 2) config_UPDATED true "some channel"
      (start (B := flaky 2) 0)
    = (Returned (Some "https://www.youtube.com/@somechannel"), f')
    /\ trace_of f' = [AttemptError 1 3; Slept 2; AttemptError 2 3; Slept 4]
    /\ trace_of (frame_before_attempt (B := flaky 2) config_UPDATED true "some channel"
                   0 2 (entering (start (B := flaky 2) 0)))
       = [] ++ backoff_trace 3 1 2.
Proof.
  apply (search_single_channel_recovers (B := flaky 2) config_UPDATED true
           "some channel" 2 (start (B := flaky 2) 0)
           {| world_of := (3 : @world (flaky 2));
              trace_of := [AttemptError 1 3; Slept 2; AttemptError 2 3; Slept 4];
              locals := Some tt |}).
  - cbn. lia.
  - intros i Hi. destruct i as [| [| i]]; [reflexivity | reflexivity | lia].
  - reflexivity.
Defined.

(** ** Sessions are closed *)

(** The frame after has the local variables of the frame before. *)
Definition same_locals {B : RenderBackend} {L} (f g : frame L) : Prop :=
  locals g = locals f.

Lemma same_locals_refl {B : RenderBackend} {L} (f : frame L) : same_locals f f.
Proof. reflexivity. Qed.

Lemma same_locals_trans {B : RenderBackend} {L} (f g h : frame L) :
  same_locals f g -> same_locals g h -> same_locals f h.
Proof. unfold same_locals. congruence. Qed.

Lemma same_locals_world {B : RenderBackend} {L} (f : frame L) (w : world) :
  same_locals f {| world_of := w; trace_of := trace_of f; locals := locals f |}.
Proof. reflexivity. Qed.

Lemma kept_same_locals_sleep {B : RenderBackend} {L} (n : nat) :
  kept (@same_locals B L) (su.safe_sleep n).
Proof. intros f. reflexivity. Qed.

Ltac keeps_locals :=
  repeat first
    [ apply kept_same_locals_sleep
    | progress keeps (@same_locals _ search_locals) (@same_locals_refl _ search_locals)
        (@same_locals_trans _ search_locals) (@same_locals_world _ search_locals) ].

(** What [close_driver] leaves: the world after [quit], when there is a
    driver to quit. *)
Lemma close_driver_frame {B : RenderBackend} {L} (d : option driver) (f : frame L) :
  su.close_driver d f
  = (Returned tt,
     {| world_of := match d with
                    | Some drv => snd (driver_quit drv (world_of f))
                    | None => world_of f
                    end;
        trace_of := trace_of f; locals := locals f |}).
Proof.
  destruct d as [drv |]; [apply close_driver_some |].
  destruct f; reflexivity.
Qed.

Lemma try_finally_eq {B : RenderBackend} {L A} (c : M L A) (fin : M L unit)
  (f g g' : frame L) (r : outcome A) :
  c f = (r, g) -> fin g = (Returned tt, g') -> try_finally c fin f = (r, g').
Proof. intros Hc Hfin. unfold try_finally. rewrite Hc, Hfin. reflexivity. Qed.

Section ResolverSessions.
Context {B : RenderBackend}.
Variable cfg : config.
Variable headless : bool.

Lemma try_block_sets_driver (name : string) (f : frame search_locals)
  (d : driver) (w1 : world) :
  create_chrome_driver headless (world_of f) = (Returned d, w1) ->
  locals (snd (try_block cfg headless name f)) = Some d.
Proof.
  intros Hc. unfold try_block.
  erewrite bind_returned by (apply call_eq; exact Hc).
  erewrite bind_returned by reflexivity.
  match goal with
  | |- locals (snd (?c ?g)) = _ =>
      assert (Hk : kept same_locals c) by keeps_locals;
      exact (Hk g)
  end.
Qed.

Lemma try_block_create_fails (name : string) (f : frame search_locals)
  (e : exn) (w1 : world) :
  create_chrome_driver headless (world_of f) = (Raised e, w1) ->
  try_block cfg headless name f
  = (Raised e, {| world_of := w1; trace_of := trace_of f; locals := locals f |}).
Proof.
  intros Hc. unfold try_block. apply bind_raised, call_eq, Hc.
Qed.

(** The [finally] of an attempt closes the driver the [try] left in the
    variable [driver], in the world the [try] left. *)
Lemma try_statement_closes (name : string) (retries : nat) (f : frame search_locals) :
  let f1 := snd (try_block cfg headless name f) in
  world_of (snd (try_statement cfg headless name retries f))
  = match locals f1 with
    | Some drv => snd (driver_quit drv (world_of f1))
    | None => world_of f1
    end
  /\ locals (snd (try_statement cfg headless name retries f)) = locals f1.
Proof.
  cbv zeta. unfold try_statement.
  destruct (try_block cfg headless name f) as [[v | e] f1] eqn:Hb; cbn [snd].
  - erewrite try_finally_eq;
      [ | apply try_except_returned; erewrite bind_returned by exact Hb; reflexivity
        | unfold bind, get_locals; apply close_driver_frame ].
    split; reflexivity.
  - destruct (retries + 1 <? MAX_RETRIES cfg)%nat.
    + erewrite try_finally_eq;
        [ | erewrite try_except_raised by (apply bind_raised; exact Hb);
            reflexivity
          | unfold bind, get_locals; apply close_driver_frame ].
      split; reflexivity.
    + erewrite try_finally_eq;
        [ | erewrite try_except_raised by (apply bind_raised; exact Hb);
            reflexivity
          | unfold bind, get_locals; apply close_driver_frame ].
      split; reflexivity.
Qed.

End ResolverSessions.

(** X11. Each attempt of the resolver ends by closing a session.  When
    the session of the attempt was started, the last call of the attempt
    is [quit] on it.  When the start itself failed, the [finally] quits
    the driver still held from the attempt before, a second time; in a
    first attempt there is none and nothing is closed. *)
Theorem search_attempt_closes_session {B : RenderBackend}
  (cfg : config) (headless : bool) (name : string) (retries : nat)
  (f : frame search_locals) :
  (forall d w1,
      create_chrome_driver headless (world_of f) = (Returned d, w1) ->
      world_of (snd (try_statement cfg headless name retries f))
      = snd (driver_quit d (world_of (snd (try_block cfg headless name f))))
      /\ locals (snd (try_statement cfg headless name retries f)) = Some d)
  /\ (forall e w1,
        create_chrome_driver headless (world_of f) = (Raised e, w1) ->
        world_of (snd (try_statement cfg headless name retries f))
        = match locals f with
          | Some stale => snd (driver_quit stale w1)
          | None => w1
          end
        /\ locals (snd (try_statement cfg headless name retries f)) = locals f).
Proof.
  destruct (try_statement_closes cfg headless name retries f) as [Hw Hl].
  split.
  - intros d w1 Hc.
    rewrite Hw, Hl, (try_block_sets_driver cfg headless name f d w1 Hc).
    split; reflexivity.
  - intros e w1 Hc.
    rewrite Hw, Hl, (try_block_create_fails cfg headless name f e w1 Hc).
    split; reflexivity.
Qed.

Lemma search_attempt_closes_session_witness :
  world_of (snd (try_statement (B := no_browser) config_UPDATED true "x" 1
                   {| world_of := (["start"; "quit"] : @world no_browser);
                      trace_of := []; locals := Some tt |}))
  = ["start"; "quit"; "start"; "quit"].
Proof.
  apply (proj2 (search_attempt_closes_session (B := no_browser) config_UPDATED true "x" 1
                  {| world_of := (["start"; "quit"] : @world no_browser);
                     trace_of := []; locals := Some tt |})
           (OtherException "session not created") ["start"; "quit"; "start"] eq_refl).
Defined.

(** The session variable of the extractor is as before. *)
Definition same_driver {B : RenderBackend} (f g : frame extract_locals) : Prop :=
  driver_var (locals g) = driver_var (locals f).

Lemma same_driver_refl {B : RenderBackend} (f : frame extract_locals) : same_driver f f.
Proof. reflexivity. Qed.

Lemma same_driver_trans {B : RenderBackend} (f g h : frame extract_locals) :
  same_driver f g -> same_driver g h -> same_driver f h.
Proof. unfold same_driver. congruence. Qed.

Lemma same_driver_world {B : RenderBackend} (f : frame extract_locals) (w : world) :
  same_driver f {| world_of := w; trace_of := trace_of f; locals := locals f |}.
Proof. reflexivity. Qed.

Lemma kept_same_driver_sleep {B : RenderBackend} (n : nat) :
  kept same_driver (su.safe_sleep n).
Proof. intros f. reflexivity. Qed.

Lemma kept_same_driver_store {B : RenderBackend} (text : string) (clean_url : option string) :
  kept same_driver (store text clean_url).
Proof.
  intros f. unfold store.
  destruct clean_url as [u |]; [| reflexivity].
  destruct (nonempty u); [| reflexivity].
  destruct (_normalize_platform text u) as [p |]; [| reflexivity].
  destruct (nonempty p); reflexivity.
Qed.

Ltac keeps_driver :=
  repeat first
    [ apply kept_same_driver_sleep
    | apply kept_same_driver_store
    | apply (kept_for_each (@same_driver _) (@same_driver_refl _) (@same_driver_trans _));
      intros ?
    | progress keeps (@same_driver _) (@same_driver_refl _) (@same_driver_trans _)
        (@same_driver_world _) ].

Section ExtractorSessions.
Context {B : RenderBackend}.
Variable headless : bool.

Lemma extract_try_block_sets_driver (channel_url : string) (f : frame extract_locals)
  (d : driver) (w1 : world) :
  create_chrome_driver headless (world_of f) = (Returned d, w1) ->
  driver_var (locals (snd (extract_try_block headless channel_url f))) = Some d.
Proof.
  intros Hc. unfold extract_try_block.
  erewrite bind_returned by (apply call_eq; exact Hc).
  erewrite bind_returned by reflexivity.
  match goal with
  | |- driver_var (locals (snd (?c ?g))) = _ =>
      assert (Hk : kept same_driver c) by keeps_driver;
      exact (Hk g)
  end.
Qed.

(** The world the method leaves is the one its [finally] leaves. *)
Lemma extract_final_world (channel_url : string) (f : frame extract_locals) :
  let f1 := snd (extract_try_block headless channel_url (fresh f)) in
  world_of (snd (extract_single_channel_links headless channel_url f))
  = match driver_var (locals f1) with
    | Some drv => snd (driver_quit drv (world_of f1))
    | None => world_of f1
    end.
Proof.
  cbv zeta. rewrite extract_single_channel_links_start.
  destruct (extract_try_block headless channel_url (fresh f)) as [[r | e] f1] eqn:Hb;
    cbn [snd].
  - erewrite bind_returned;
      [ | unfold extract_protected; eapply try_finally_eq;
          [ apply try_except_returned; exact Hb
          | unfold bind, get_locals; apply close_driver_frame ] ].
    destruct r as [early |]; reflexivity.
  - erewrite bind_returned;
      [ | unfold extract_protected; eapply try_finally_eq;
          [ erewrite try_except_raised by exact Hb; reflexivity
          | unfold bind, get_locals; apply close_driver_frame ] ].
    reflexivity.
Qed.

End ExtractorSessions.

(** X12. [extract_single_channel_links] closes the session it started on
    every path: the last call it makes is [quit] on that session.  When
    no session could be started it calls nothing more and returns the
    empty list. *)
Theorem extract_closes_session {B : RenderBackend}
  (headless : bool) (channel_url : string) (f : frame extract_locals) :
  (forall d w1,
      create_chrome_driver headless (world_of f) = (Returned d, w1) ->
      world_of (snd (extract_single_channel_links headless channel_url f))
      = snd (driver_quit d
               (world_of (snd (extract_try_block headless channel_url (fresh f))))))
  /\ (forall e w1,
        create_chrome_driver headless (world_of f) = (Raised e, w1) ->
        world_of (snd (extract_single_channel_links headless channel_url f)) = w1
        /\ fst (extract_single_channel_links headless channel_url f) = Returned []).
Proof.
  pose proof (extract_final_world headless channel_url f) as Hw. cbv zeta in Hw.
  split.
  - intros d w1 Hc. rewrite Hw.
    rewrite (extract_try_block_sets_driver headless channel_url (fresh f) d w1 Hc).
    reflexivity.
  - intros e w1 Hc.
    assert (Hb : extract_try_block headless channel_url (fresh f)
                 = (Raised e, {| world_of := w1; trace_of := trace_of f;
                                 locals := {| driver_var := None; results := [] |} |})).
    { unfold extract_try_block. apply bind_raised. apply (call_eq _ (fresh f)). exact Hc. }
    split.
    + rewrite Hw, Hb. reflexivity.
    + destruct (extract_raised_returns_collected headless channel_url f _ e Hb)
        as [f' ->].
      reflexivity.
Qed.

Lemma extract_closes_session_witness :
  world_of (snd (extract_single_channel_links (B := no_browser) true
                   "https://www.youtube.com/@x"
                   {| world_of := ([] : @world no_browser); trace_of := [];
                      locals := {| driver_var := None; results := [] |} |}))
  = ["start"].
Proof.
  apply (proj2 (extract_closes_session (B := no_browser) true "https://www.youtube.com/@x"
                  {| world_of := ([] : @world no_browser); trace_of := [];
                     locals := {| driver_var := None; results := [] |} |})
           (OtherException "session not created") ["start"] eq_refl).
Defined.

(** ** The two ways to find a channel *)

Lemma safe_get_succeeds {B : RenderBackend} {L} (d : driver) (url : string)
  (f : frame L) (w : world) :
  driver_get d url (world_of f) = (Returned tt, w) ->
  su.safe_get d url f
  = (Returned true, {| world_of := w; trace_of := trace_of f; locals := locals f |}).
Proof.
  intros Hg. unfold su.safe_get, try_except, bind, call. rewrite Hg. reflexivity.
Qed.

Lemma find_elements_safe_eq {B : RenderBackend} {L} (d : driver) (by_ : By)
  (value : string) (f : frame L) (els : list element) (w : world) :
  driver_find_elements d by_ value (world_of f) = (Returned els, w) ->
  su.find_elements_safe d by_ value f
  = (Returned els, {| world_of := w; trace_of := trace_of f; locals := locals f |}).
Proof.
  intros Hg. unfold su.find_elements_safe, try_except, call. rewrite Hg. reflexivity.
Qed.

Lemma get_attribute_safe_eq {B : RenderBackend} {L} (el : element) (attribute : string)
  (f : frame L) (v : option string) (w : world) :
  element_get_attribute el attribute (world_of f) = (Returned v, w) ->
  su.get_attribute_safe el attribute f
  = (Returned v, {| world_of := w; trace_of := trace_of f; locals := locals f |}).
Proof.
  intros Hg. unfold su.get_attribute_safe, try_except, call. rewrite Hg. reflexivity.
Qed.

(** An attempt that returns: the method returns its value once the
    [finally] has closed the driver. *)
Lemma search_returns_after_close {B : RenderBackend} (cfg : config) (headless : bool)
  (name : string) (f f1 : frame search_locals) (v : option string) :
  (0 < MAX_RETRIES cfg)%nat ->
  try_block cfg headless name (entering f) = (Returned v, f1) ->
  search_single_channel cfg headless name f
  = (Returned v,
     {| world_of := match locals f1 with
                    | Some drv => snd (driver_quit drv (world_of f1))
                    | None => world_of f1
                    end;
        trace_of := trace_of f1; locals := locals f1 |}).
Proof.
  intros Hmax Hb.
  change (search_single_channel cfg headless name f)
    with (while_retries cfg headless name 0 (entering f)).
  rewrite while_retries_turn.
  destruct (lt_dec 0 (MAX_RETRIES cfg)) as [_ | Hge]; [| lia].
  unfold try_statement.
  erewrite try_finally_eq;
    [ | apply try_except_returned; erewrite bind_returned by exact Hb; reflexivity
      | unfold bind, get_locals; apply close_driver_frame ].
  reflexivity.
Qed.

(** The direct profile URL of an alias, as lines 62-63 build it. *)
Definition direct_url (channel_name : string) : string :=
  ("https://www.youtube.com/@" ++ remove_char " " (strip channel_name))%string.

(** X13. The fast path, for an alias of ASCII characters: when the
    session starts, the handle page loads and neither its title has "404"
    nor its source "This channel", the resolver returns the handle URL
    (the alias stripped, its spaces removed).  It has then made just these
    four calls and the [quit]: no search page is fetched and
    [su.safe_sleep] is not called, neither to settle nor to back off. *)
Theorem search_direct_hit {B : RenderBackend} (cfg : config) (headless : bool)
  (name : string) (f : frame search_locals)
  (d : driver) (w1 w2 w3 w4 : world) (title page_source : string) :
  ascii_only name = true ->
  (0 < MAX_RETRIES cfg)%nat ->
  create_chrome_driver headless (world_of f) = (Returned d, w1) ->
  driver_get d (direct_url name) w1 = (Returned tt, w2) ->
  driver_title d w2 = (Returned title, w3) ->
  contains "404" title = false ->
  driver_page_source d w3 = (Returned page_source, w4) ->
  contains "This channel" page_source = false ->
  search_single_channel cfg headless name f
  = (Returned (Some (direct_url name)),
     {| world_of := snd (driver_quit d w4); trace_of := trace_of f; locals := Some d |}).
Proof.
  intros _ Hmax Hc Hg Ht Ht404 Hp Hpm.
  rewrite (search_returns_after_close cfg headless name f
             {| world_of := w4; trace_of := trace_of f; locals := Some d |}
             (Some (direct_url name)) Hmax); [reflexivity |].
  unfold try_block.
  erewrite bind_returned by (apply call_eq; exact Hc).
  erewrite bind_returned by reflexivity.
  erewrite bind_returned by (apply safe_get_succeeds; exact Hg).
  erewrite bind_returned;
    [ | erewrite bind_returned by (apply call_eq; exact Ht);
        rewrite Ht404; cbn [negb];
        erewrite bind_returned by (apply call_eq; exact Hp);
        rewrite Hpm; reflexivity ].
  reflexivity.
Qed.

Lemma search_direct_hit_witness :
  search_single_channel (B := flaky 0) config_UPDATED true " some channel "
    (start (B := flaky 0) 0)
  = (Returned (Some "https://www.youtube.com/@somechannel"),
     {| world_of := (1 : @world (flaky 0)); trace_of := []; locals := Some tt |}).
Proof.
  apply (search_direct_hit (B := flaky 0) config_UPDATED true " some channel "
           (start (B := flaky 0) 0) tt 1 1 1 1
           "Some Channel - YouTube" "<html></html>");
    first [reflexivity | cbn; lia].
Defined.

(** X14. The search fallback, for an alias of ASCII characters: when the
    handle page shows "404" in its title and the search page loads, the
    resolver calls [su.safe_sleep] once, for the settle delay, and looks
    for links with ["/@"] in them.  With no such link it returns [None];
    otherwise it returns the [href] of the first one, made absolute.
    Either way there is one attempt, and the session is closed after the
    last read. *)
Theorem search_fallback {B : RenderBackend} (cfg : config) (headless : bool)
  (name : string) (f : frame search_locals)
  (d : driver) (w1 w2 w3 w4 w5 : world) (title : string) (links : list element) :
  ascii_only name = true ->
  (0 < MAX_RETRIES cfg)%nat ->
  create_chrome_driver headless (world_of f) = (Returned d, w1) ->
  driver_get d (direct_url name) w1 = (Returned tt, w2) ->
  driver_title d w2 = (Returned title, w3) ->
  contains "404" title = true ->
  driver_get d (search_url name) w3 = (Returned tt, w4) ->
  driver_find_elements d XPATH "//a[@href and contains(@href, '/@')]" w4
  = (Returned links, w5) ->
  (links = [] ->
   search_single_channel cfg headless name f
   = (Returned None,
      {| world_of := snd (driver_quit d w5);
         trace_of := trace_of f ++ [Slept (DELAY_BETWEEN_REQUESTS cfg)];
         locals := Some d |}))
  /\ (forall first rest href w6,
        links = first :: rest ->
        element_get_attribute first "href" w5 = (Returned (Some href), w6) ->
        nonempty href = true ->
        search_single_channel cfg headless name f
        = (Returned (Some (su.normalize_url href)),
           {| world_of := snd (driver_quit d w6);
              trace_of := trace_of f ++ [Slept (DELAY_BETWEEN_REQUESTS cfg)];
              locals := Some d |})).
Proof.
  intros _ Hmax Hc Hg Ht Ht404 Hs Hf.
  split.
  - intros ->.
    rewrite (search_returns_after_close cfg headless name f
               {| world_of := w5;
                  trace_of := trace_of f ++ [Slept (DELAY_BETWEEN_REQUESTS cfg)];
                  locals := Some d |} None Hmax); [reflexivity |].
    unfold try_block.
    erewrite bind_returned by (apply call_eq; exact Hc).
    erewrite bind_returned by reflexivity.
    erewrite bind_returned by (apply safe_get_succeeds; exact Hg).
    erewrite bind_returned;
      [ | erewrite bind_returned by (apply call_eq; exact Ht);
          rewrite Ht404; reflexivity ].
    cbv iota.
    erewrite bind_returned by (apply safe_get_succeeds; exact Hs).
    cbv iota.
    erewrite bind_returned by reflexivity.
    erewrite bind_returned by (apply find_elements_safe_eq; exact Hf).
    reflexivity.
  - intros first rest href w6 -> Ha Hne.
    rewrite (search_returns_after_close cfg headless name f
               {| world_of := w6;
                  trace_of := trace_of f ++ [Slept (DELAY_BETWEEN_REQUESTS cfg)];
                  locals := Some d |} (Some (su.normalize_url href)) Hmax);
      [reflexivity |].
    unfold try_block.
    erewrite bind_returned by (apply call_eq; exact Hc).
    erewrite bind_returned by reflexivity.
    erewrite bind_returned by (apply safe_get_succeeds; exact Hg).
    erewrite bind_returned;
      [ | erewrite bind_returned by (apply call_eq; exact Ht);
          rewrite Ht404; reflexivity ].
    cbv iota.
    erewrite bind_returned by (apply safe_get_succeeds; exact Hs).
    cbv iota.
    erewrite bind_returned by reflexivity.
    erewrite bind_returned by (apply find_elements_safe_eq; exact Hf).
    cbv iota.
    erewrite bind_returned by (apply get_attribute_safe_eq; exact Ha).
    cbv iota. rewrite Hne. reflexivity.
Qed.

Lemma search_fallback_witness :
  search_single_channel (B := search_results ["/@found"; "/@other"]) config_UPDATED true
    "lost channel" (start (B := search_results ["/@found"; "/@other"]) [])
  = (Returned (Some "https://www.youtube.com/@found"),
     {| world_of := (["start"; "get https://www.youtube.com/@lostchannel"; "title";
                      "get https://www.youtube.com/results?search_query=lost%20channel";
                      "find"; "href"; "quit"]
                     : @world (search_results ["/@found"; "/@other"]));
        trace_of := [Slept 1]; locals := Some tt |}).
Proof.
  refine (proj2 (search_fallback (B := search_results ["/@found"; "/@other"])
                   config_UPDATED true "lost channel"
                   (start (B := search_results ["/@found"; "/@other"]) [])
                   tt _ _ _ _ _ "404 Not Found" ["/@found"; "/@other"]
                   eq_refl _ eq_refl eq_refl eq_refl eq_refl eq_refl eq_refl)
            "/@found" ["/@other"] "/@found" _ eq_refl eq_refl eq_refl).
  cbn. lia.
Defined.

(** ** Rows of the link table *)

(** X7. Whatever the order of completion, the rows [extract_social_links]
    writes are the links the workers returned, each once, under the
    channel URL they were asked for: as many rows as links. *)
Theorem extract_social_links_rows_kept
  (run : nat -> string -> outcome (list link))
  (as_completed : list (future string (list link)) -> list (future string (list link)))
  (urls : list string) :
  Permutation (as_completed (submit_all run 0 urls)) (submit_all run 0 urls) ->
  Permutation (extract_social_links run as_completed urls)
    (flat_map rows_of (submit_all run 0 urls))
  /\ length (extract_social_links run as_completed urls)
     = list_sum (map (fun fut : future string (list link) =>
                        match snd fut with
                        | Returned links => length links
                        | Raised _ => 0
                        end) (submit_all run 0 urls)).
Proof.
  intros Hperm. rewrite extract_social_links_entries.
  assert (Hp : Permutation (flat_map rows_of (as_completed (submit_all run 0 urls)))
                 (flat_map rows_of (submit_all run 0 urls))).
  { apply Permutation_flat_map. exact Hperm. }
  split; [exact Hp |].
  rewrite (Permutation_length Hp), length_flat_map.
  f_equal. apply map_ext. intros [url [links | e]]; unfold rows_of; cbn [snd fst].
  - apply length_map.
  - reflexivity.
Qed.

Lemma extract_social_links_rows_kept_witness :
  length (extract_social_links
            (fun i _ => if (i =? 0)%nat then Raised (OtherException "boom")
                        else Returned [ {| link_platform := "Email"; link_url := "a@b.c" |};
                                        {| link_platform := "TikTok"; link_url := "tiktok.com/@a" |} ])
            (fun futures => rev futures) ["u0"; "u1"; "u2"])
  = 4.
Proof.
  rewrite (proj2 (extract_social_links_rows_kept _ (fun futures => rev futures)
                    ["u0"; "u1"; "u2"] (Permutation_sym (Permutation_rev _)))).
  reflexivity.
Defined.

(** ** How long the resolver asks to sleep *)

(** The seconds passed to [su.safe_sleep] in a trace.  (The waits of
    [su.create_chrome_driver], which it makes with [time.sleep] while it
    retries on its own, are inside that call and not in the trace.) *)
Fixpoint safe_sleep_seconds (trace : list event) : nat :=
  match trace with
  | [] => 0
  | Slept seconds :: rest => seconds + safe_sleep_seconds rest
  | AttemptError _ _ :: rest => safe_sleep_seconds rest
  end.

Lemma safe_sleep_seconds_app (t u : list event) :
  safe_sleep_seconds (t ++ u) = safe_sleep_seconds t + safe_sleep_seconds u.
Proof.
  induction t as [| [s | r m] t IH]; cbn [app safe_sleep_seconds]; [reflexivity | | exact IH].
  rewrite IH. lia.
Qed.

Lemma safe_sleep_seconds_backoff (max_retries k first : nat) :
  (max_retries <= first -> safe_sleep_seconds (backoff_trace max_retries first k) = 0)
  /\ (first <= max_retries ->
      safe_sleep_seconds (backoff_trace max_retries first k) + 2 ^ first <= 2 ^ max_retries).
Proof.
  revert first. induction k as [| k IH]; intros first; unfold backoff_trace;
    cbn [seq flat_map safe_sleep_seconds].
  - split; [reflexivity |]. intros H. cbn. apply Nat.pow_le_mono_r; lia.
  - fold (backoff_trace max_retries (S first) k).
    rewrite safe_sleep_seconds_app. unfold retry_events.
    destruct (IH (S first)) as [IH0 IHle].
    destruct (Nat.ltb_spec first max_retries) as [Hlt | Hge]; cbn [safe_sleep_seconds].
    + split; [intros H; lia |]. intros _.
      specialize (IHle ltac:(lia)). rewrite Nat.pow_succ_r' in IHle. lia.
    + split.
      * intros _. rewrite IH0 by lia. reflexivity.
      * intros H. rewrite IH0 by lia.
        replace first with max_retries by lia. lia.
Qed.

(** X15. However the attempts go, the calls of [su.safe_sleep] that one
    call of [search_single_channel] makes add up to at most
    [2 ^ MAX_RETRIES - 2] seconds of back-off plus one settle delay: 7
    seconds with the shipped configuration.  The time a session start
    takes is not part of this. *)
Theorem search_single_channel_safe_sleep_bound {B : RenderBackend}
  (cfg : config) (headless : bool) (name : string) (f : frame search_locals) :
  (exists added,
      trace_of (snd (search_single_channel cfg headless name f)) = trace_of f ++ added
      /\ safe_sleep_seconds added
         <= 2 ^ MAX_RETRIES cfg - 2 + DELAY_BETWEEN_REQUESTS cfg)
  /\ 2 ^ MAX_RETRIES config_UPDATED - 2 + DELAY_BETWEEN_REQUESTS config_UPDATED = 7.
Proof.
  split; [| reflexivity].
  change (search_single_channel cfg headless name f)
    with (while_retries cfg headless name 0 (entering f)).
  destruct (while_retries_shape cfg headless name (MAX_RETRIES cfg) 0 (entering f)
              ltac:(lia) ltac:(lia))
    as (v & f' & k & tail & Hw & Hk & Ht & Htail & Hend).
  rewrite Hw. cbn [snd Nat.add trace_of entering] in *.
  exists (backoff_trace (MAX_RETRIES cfg) 1 k ++ tail). split; [exact Ht |].
  rewrite safe_sleep_seconds_app.
  assert (Htl : safe_sleep_seconds tail <= DELAY_BETWEEN_REQUESTS cfg).
  { destruct Htail as [-> | ->]; cbn; lia. }
  destruct (safe_sleep_seconds_backoff (MAX_RETRIES cfg) k 1) as [H0 Hle].
  destruct (Nat.le_gt_cases 1 (MAX_RETRIES cfg)) as [H1 | H1].
  - specialize (Hle H1). cbn [Nat.pow Nat.mul] in Hle. lia.
  - rewrite H0 by lia. lia.
Qed.
